(** * Preflop Range Quiz: miss bookkeeping, weighted draw and persisted progress

    A shallow embedding of [src/App.tsx]: the progress store and its JSON
    persistence ([loadProgressFromStorage], [persistProgress]), the weighted
    draw ([ensureMinimumMisses], [pickWeightedHand]) and the answer handler
    ([handleAnswer], [handleNext]) of the [App] component.

    Modelling conventions.
    - A JavaScript [number] that counts misses or players is a [Z]; the
      counters of the program are small integers on which double arithmetic
      is exact.  [Math.random() * totalWeight] is a rational ([Q]), taken
      exactly in [pickWeightedHand]; [pickRounded] is the draw with every
      result rounded.
    - A JavaScript string is a Rocq [string], read as UTF-8 text.
    - React state is one record, [AppState], holding the [useState] cells
      the handlers read and write (the [loading] and [error] cells and the
      asynchronous fetch are left out; of the rendering, what decides which
      control is enabled and what the banner and the buttons show is
      modelled); an event handler is a function from state to state, since
      React applies the setters queued by one handler together, before the
      next event is handled.  [handleAnswer] is the call made by the handler
      of the render that shows the state it is given, as a click on the
      rendered button is; [handleAnswerFrom] is the handler of any render.
    - [window.localStorage] is a finite map from keys to strings whose reads
      and writes succeed; [window] is absent in a non-browser runtime.
      [handleAnswerWithin] is the answer handler over a storage that refuses
      a write.
    - The stored progress is typed by a cast: [bootstrap] is defined on the
      stored objects that have the [ProgressStore] shape and on no others.
    - [Math.random()] and [new Date().toISOString()] are inputs of the
      handlers that use them.
    - [JSON.parse] and [JSON.stringify] belong to the runtime, not to the
      repository; module [JSON] gives them an executable model on the JSON
      grammar (ECMA-404), with numbers kept as exact decimals instead of
      doubles. *)

From Stdlib Require Import ZArith QArith Lia Lqa Ascii String Decimal DecimalString DecimalN DecimalPos DecimalFacts.
From stdpp Require Import gmap strings list fin_maps.

Local Open Scope string_scope.
Local Open Scope Z_scope.

(** ** JSON values, printing and parsing (the runtime's [JSON] object) *)

Module JSON.

(** A number is [m / 10^d]: an integer when [d = 0], and otherwise a decimal
    whose mantissa does not end in the digit 0. *)
#[warnings="-register-all"]
Inductive json : Type :=
| JNull
| JBool (b : bool)
| JNum (m : Z) (d : nat)
| JStr (s : string)
| JArr (items : list json)
| JObj (members : list (string * json)).

Definition dquote : ascii := "034"%char.
Definition backslash : ascii := "092"%char.

(** Property read [o.k] on a parsed value, for a name that is no built-in
    property of strings, arrays or [Object.prototype] (the program reads
    [totalMisses], [perHand], [misses] and [lastMissedAt]): the own property
    of an object, the last definition of a repeated key winning; [None] is
    JavaScript's [undefined]. *)
Definition get (k : string) (v : json) : option json :=
  match v with
  | JObj members =>
      fold_left (fun found '(k', x) => if String.eqb k k' then Some x else found)
                members None
  | _ => None
  end.

(** *** Printing *)

Definition hex_char (n : N) : ascii :=
  ascii_of_N (if (n <? 10)%N then 48 + n else 87 + n).

Definition escape_char (c : ascii) : string :=
  if (c =? dquote)%char then String backslash (String dquote "")
  else if (c =? backslash)%char then String backslash (String backslash "")
  else if (c =? "008")%char then String backslash "b"
  else if (c =? "009")%char then String backslash "t"
  else if (c =? "010")%char then String backslash "n"
  else if (c =? "012")%char then String backslash "f"
  else if (c =? "013")%char then String backslash "r"
  else if (N_of_ascii c <? 32)%N then
    String backslash
      (String "u" (String "0" (String "0"
         (String (hex_char (N_of_ascii c / 16))
            (String (hex_char (N_of_ascii c mod 16)) "")))))
  else String c "".

Fixpoint escape (s : string) : string :=
  match s with
  | "" => ""
  | String c s' => escape_char c ++ escape s'
  end.

Definition quote (s : string) : string :=
  String dquote (escape s ++ String dquote "").

(** Decimal numeral of a natural number, without leading zeros. *)
Definition print_N (n : N) : string := NilEmpty.string_of_uint (N.to_uint n).

Fixpoint pad_zeros (k : nat) (s : string) : string :=
  match k with
  | O => s
  | S k' => String "0" (pad_zeros k' s)
  end.

(** [digits] with a point before its last [d] digits ([d > 0]). *)
Definition positional (digits : string) (d : nat) : string :=
  let padded := pad_zeros (S d - String.length digits) digits in
  let n := (String.length padded - d)%nat in
  substring 0 n padded ++ "." ++ substring n d padded.

(** Positional notation.  (The runtime turns to exponent notation from
    1e21 upwards and below 1e-6, far from any miss count; the text differs
    there, the number it denotes does not.) *)
Definition print_number (m : Z) (d : nat) : string :=
  let sign := if (m <? 0)%Z then "-" else "" in
  let digits := print_N (Z.abs_N m) in
  sign ++ match d with
          | O => digits
          | S _ => positional digits d
          end.

Fixpoint join (sep : string) (l : list string) : string :=
  match l with
  | [] => ""
  | [x] => x
  | x :: l' => x ++ sep ++ join sep l'
  end.

(** [JSON.stringify(v)] with no indentation. *)
Fixpoint stringify (v : json) : string :=
  match v with
  | JNull => "null"
  | JBool true => "true"
  | JBool false => "false"
  | JNum m d => print_number m d
  | JStr s => quote s
  | JArr items => "[" ++ join "," (map stringify items) ++ "]"
  | JObj members =>
      "{" ++ join "," (map (fun '(k, x) => quote k ++ ":" ++ stringify x) members) ++ "}"
  end.

(** *** Parsing *)

Definition is_ws (c : ascii) : bool :=
  (c =? " ")%char || (c =? "009")%char || (c =? "010")%char || (c =? "013")%char.

Fixpoint skip_ws (s : string) : string :=
  match s with
  | String c r => if is_ws c then skip_ws r else s
  | "" => ""
  end.

Definition digit (c : ascii) : option (uint -> uint) :=
  if (c =? "0")%char then Some D0
  else if (c =? "1")%char then Some D1
  else if (c =? "2")%char then Some D2
  else if (c =? "3")%char then Some D3
  else if (c =? "4")%char then Some D4
  else if (c =? "5")%char then Some D5
  else if (c =? "6")%char then Some D6
  else if (c =? "7")%char then Some D7
  else if (c =? "8")%char then Some D8
  else if (c =? "9")%char then Some D9
  else None.

(** The longest run of decimal digits at the head of [s], and what follows. *)
Fixpoint split_digits (s : string) : uint * string :=
  match s with
  | String c r =>
      match digit c with
      | Some D => let '(u, r') := split_digits r in (D u, r')
      | None => (Nil, s)
      end
  | "" => (Nil, "")
  end.

Definition some_digits (s : string) : option (uint * string) :=
  match split_digits s with
  | (Nil, _) => None
  | (u, r) => Some (u, r)
  end.

(** [int]: a single 0, or digits that do not start with 0. *)
Definition parse_int (s : string) : option (uint * string) :=
  match s with
  | String c r => if (c =? "0")%char then Some (D0 Nil, r) else some_digits s
  | "" => None
  end.

(** [frac]: nothing, or a point and at least one digit. *)
Definition parse_frac (s : string) : option (uint * string) :=
  match s with
  | String c r => if (c =? ".")%char then some_digits r else Some (Nil, s)
  | "" => Some (Nil, "")
  end.

(** [exp]: nothing, or e/E, an optional sign and at least one digit. *)
Definition parse_exp (s : string) : option (Z * string) :=
  match s with
  | String c r =>
      if (c =? "e")%char || (c =? "E")%char then
        let '(neg, r1) :=
          match r with
          | String c' r' =>
              if (c' =? "-")%char then (true, r')
              else if (c' =? "+")%char then (false, r')
              else (false, r)
          | "" => (false, r)
          end in
        '(u, r2) ← some_digits r1;
        Some (if neg : bool then - Z.of_N (N.of_uint u) else Z.of_N (N.of_uint u), r2)
      else Some (0, s)
  | "" => Some (0, "")
  end.

(** [m / 10^d] with the trailing zeros of the fraction removed. *)
Fixpoint strip_zeros (d : nat) (m : Z) : json :=
  match d with
  | O => JNum m 0
  | S d' => if m mod 10 =? 0 then strip_zeros d' (m / 10) else JNum m d
  end.

Definition number_value (neg : bool) (int frac : uint) (ex : Z) : json :=
  let digits := (N.of_uint int * 10 ^ N.of_nat (nb_digits frac) + N.of_uint frac)%N in
  let m := if neg then - Z.of_N digits else Z.of_N digits in
  let x := ex - Z.of_nat (nb_digits frac) in
  if 0 <=? x then JNum (m * 10 ^ x) 0 else strip_zeros (Z.to_nat (- x)) m.

Definition parse_number (s : string) : option (json * string) :=
  let '(neg, r0) :=
    match s with
    | String c r => if (c =? "-")%char then (true, r) else (false, s)
    | "" => (false, s)
    end in
  '(int, r1) ← parse_int r0;
  '(frac, r2) ← parse_frac r1;
  '(ex, r3) ← parse_exp r2;
  Some (number_value neg int frac ex, r3).

Definition hex_val (c : ascii) : option N :=
  let n := N_of_ascii c in
  if (48 <=? n)%N && (n <=? 57)%N then Some (n - 48)%N
  else if (97 <=? n)%N && (n <=? 102)%N then Some (n - 87)%N
  else if (65 <=? n)%N && (n <=? 70)%N then Some (n - 55)%N
  else None.

Definition hex4 (a b c d : ascii) : option N :=
  x3 ← hex_val a; x2 ← hex_val b; x1 ← hex_val c; x0 ← hex_val d;
  Some (((x3 * 16 + x2) * 16 + x1) * 16 + x0)%N.

(** UTF-8 bytes of a code point; a lone surrogate (which no UTF-8 text
    holds) is given the three bytes its value would take. *)
Definition utf8 (cp : N) : string :=
  let byte (n : N) := ascii_of_N n in
  if (cp <? 128)%N then String (byte cp) ""
  else if (cp <? 2048)%N then
    String (byte (192 + cp / 64)%N) (String (byte (128 + cp mod 64)%N) "")
  else if (cp <? 65536)%N then
    String (byte (224 + cp / 4096)%N)
      (String (byte (128 + (cp / 64) mod 64)%N) (String (byte (128 + cp mod 64)%N) ""))
  else
    String (byte (240 + cp / 262144)%N)
      (String (byte (128 + (cp / 4096) mod 64)%N)
         (String (byte (128 + (cp / 64) mod 64)%N)
            (String (byte (128 + cp mod 64)%N) ""))).

Definition simple_escape (c : ascii) : option ascii :=
  if (c =? dquote)%char then Some dquote
  else if (c =? backslash)%char then Some backslash
  else if (c =? "/")%char then Some "/"%char
  else if (c =? "b")%char then Some "008"%char
  else if (c =? "f")%char then Some "012"%char
  else if (c =? "n")%char then Some "010"%char
  else if (c =? "r")%char then Some "013"%char
  else if (c =? "t")%char then Some "009"%char
  else None.

Definition prepend (p : string) (x : option (string * string)) : option (string * string) :=
  '(s, r) ← x; Some (p ++ s, r).

(** The characters of a string literal after its opening quote, up to and
    including the closing quote: the text denoted and the rest of the input. *)
Fixpoint parse_string (s : string) : option (string * string) :=
  match s with
  | "" => None
  | String c r =>
      if (c =? dquote)%char then Some ("", r)
      else if (c =? backslash)%char then
        match r with
        | "" => None
        | String e r1 =>
            if (e =? "u")%char then
              match r1 with
              | String h3 (String h2 (String h1 (String h0 r2))) =>
                  hi ← hex4 h3 h2 h1 h0;
                  let single := prepend (utf8 hi) (parse_string r2) in
                  if (55296 <=? hi)%N && (hi <? 56320)%N then
                    match r2 with
                    | String b (String u (String l3 (String l2 (String l1 (String l0 r3))))) =>
                        if (b =? backslash)%char && (u =? "u")%char then
                          match hex4 l3 l2 l1 l0 with
                          | Some lo =>
                              if (56320 <=? lo)%N && (lo <? 57344)%N then
                                prepend (utf8 (65536 + (hi - 55296) * 1024 + (lo - 56320))%N)
                                        (parse_string r3)
                              else single
                          | None => single
                          end
                        else single
                    | _ => single
                    end
                  else single
              | _ => None
              end
            else
              x ← simple_escape e;
              prepend (String x "") (parse_string r1)
        end
      else if (N_of_ascii c <? 32)%N then None
      else prepend (String c "") (parse_string r)
  end.

(** [s] without its prefix [word], if it has it. *)
Fixpoint strip_prefix (word s : string) : option string :=
  match word with
  | "" => Some s
  | String c word' =>
      match s with
      | String c' s' => if (c =? c')%char then strip_prefix word' s' else None
      | "" => None
      end
  end.

Definition literal (word : string) (v : json) (s : string) : option (json * string) :=
  r ← strip_prefix word s; Some (v, r).

Fixpoint parse_value (fuel : nat) (s : string) : option (json * string) :=
  match fuel with
  | O => None
  | S fuel =>
      match skip_ws s with
      | "" => None
      | String c r as s' =>
          if (c =? "{")%char then
            match skip_ws r with
            | String c' r' =>
                if (c' =? "}")%char then Some (JObj [], r')
                else '(ms, r'') ← parse_members fuel r; Some (JObj ms, r'')
            | "" => None
            end
          else if (c =? "[")%char then
            match skip_ws r with
            | String c' r' =>
                if (c' =? "]")%char then Some (JArr [], r')
                else '(vs, r'') ← parse_elements fuel r; Some (JArr vs, r'')
            | "" => None
            end
          else if (c =? dquote)%char then
            '(str, r') ← parse_string r; Some (JStr str, r')
          else if (c =? "t")%char then literal "true" (JBool true) s'
          else if (c =? "f")%char then literal "false" (JBool false) s'
          else if (c =? "n")%char then literal "null" JNull s'
          else parse_number s'
      end
  end
with parse_elements (fuel : nat) (s : string) : option (list json * string) :=
  match fuel with
  | O => None
  | S fuel =>
      '(v, r) ← parse_value fuel s;
      match skip_ws r with
      | String c r' =>
          if (c =? ",")%char then
            '(vs, r'') ← parse_elements fuel r'; Some (v :: vs, r'')
          else if (c =? "]")%char then Some ([v], r')
          else None
      | "" => None
      end
  end
with parse_members (fuel : nat) (s : string) : option (list (string * json) * string) :=
  match fuel with
  | O => None
  | S fuel =>
      match skip_ws s with
      | String q r =>
          if (q =? dquote)%char then
            '(k, r1) ← parse_string r;
            match skip_ws r1 with
            | String c r2 =>
                if (c =? ":")%char then
                  '(v, r3) ← parse_value fuel r2;
                  match skip_ws r3 with
                  | String c' r4 =>
                      if (c' =? ",")%char then
                        '(ms, r5) ← parse_members fuel r4; Some ((k, v) :: ms, r5)
                      else if (c' =? "}")%char then Some ([(k, v)], r4)
                      else None
                  | "" => None
                  end
                else None
            | "" => None
            end
          else None
      | "" => None
      end
  end.

(** [JSON.parse(text)]: [None] where the runtime throws a [SyntaxError].
    The fuel is more than any text needs ([parse_fuel_irrelevant]). *)
Definition parse (text : string) : option json :=
  '(v, r) ← parse_value (2 * String.length text + 1) text;
  match skip_ws r with
  | "" => Some v
  | _ => None
  end.

(** *** Notions used to state that a printed value is read back *)

(** [s] does not start with a decimal digit. *)
Definition no_digit_head (s : string) : Prop :=
  match s with String c _ => digit c = None | "" => True end.

(** What may follow a value inside a printed text. *)
Definition delimited (rest : string) : Prop :=
  match rest with
  | "" => True
  | String c _ => c = ","%char ∨ c = "]"%char ∨ c = "}"%char
  end.

(** The characters a printed number starts with, and those a printed value
    starts with. *)
Definition number_head (c : ascii) : bool :=
  (c =? "-")%char || bool_decide (is_Some (digit c)).

(** Values whose numbers are all integers. *)
Fixpoint integral (v : json) : bool :=
  match v with
  | JNum _ d => bool_decide (d = O)
  | JArr items => forallb integral items
  | JObj members => forallb (fun '(_, x) => integral x) members
  | _ => true
  end.

(** Fuel that is enough to read a printed value back. *)
Fixpoint size (v : json) : nat :=
  match v with
  | JArr items => S (length items + list_sum (map size items))
  | JObj members => S (length members + list_sum (map (fun '(_, x) => size x) members))
  | _ => 1
  end.

Definition value_head (c : ascii) : bool :=
  (c =? "{")%char || (c =? "[")%char || (c =? dquote)%char || (c =? "t")%char
  || (c =? "f")%char || (c =? "n")%char || number_head c.

(** Reading [v]'s text gives [v] and leaves what follows the text. *)
Definition reads_back (v : json) : Prop :=
  integral v = true →
  ∀ fuel rest, (size v ≤ fuel)%nat → delimited rest →
  parse_value fuel (stringify v ++ rest) = Some (v, rest).

(** The fuel [parse] starts with covers [v]'s text. *)
Definition fits (v : json) : Prop :=
  integral v = true → (size v + 1 ≤ 2 * String.length (stringify v))%nat.

End JSON.

Import JSON.

(** ** Data model (App.tsx, lines 12-51) *)

(** [HandRecord]: one row of the reference table together with its miss
    weight; [lastMissedAt] is the optional field. *)
Record HandRecord := {
  Hand : string;
  Color : string;
  Players : Z;
  misses : Z;
  lastMissedAt : option string;
}.

(** The value type of [ProgressStore.perHand]. *)
Record PerHandEntry := {
  entry_misses : Z;
  entry_lastMissedAt : option string;
}.

Record ProgressStore := {
  totalMisses : Z;
  perHand : gmap string PerHandEntry;
}.

Inductive AnswerStatus := idle | correct | incorrect.

Definition LOCAL_STORAGE_KEY : string := "preflop-range-progress".

Definition DEFAULT_PROGRESS : ProgressStore :=
  {| totalMisses := 0; perHand := ∅ |}.

Definition ensureMinimumMisses (misses : Z) : Z := Z.max 1 misses.

(** *** A progress store as the JavaScript object it is at run time *)

(** An absent [lastMissedAt] is no property at all. *)
Definition entry_toJS (e : PerHandEntry) : json :=
  JObj (("misses", JNum (entry_misses e) 0)
        :: match entry_lastMissedAt e with
           | Some t => [("lastMissedAt", JStr t)]
           | None => []
           end).

(** The records are listed in the map's order of enumeration; the program
    never depends on the order of the keys of [perHand]. *)
Definition toJS (p : ProgressStore) : json :=
  JObj [("totalMisses", JNum (totalMisses p) 0);
        ("perHand",
         JObj (map (fun '(k, e) => (k, entry_toJS e)) (map_to_list (perHand p))))].

(** The unchecked cast [as ProgressStore] of line 93, made explicit: the
    typed reading of an object, defined exactly on the objects of the shape
    the type promises.  As in [get], the last record of a repeated key is
    the one kept. *)
Definition entry_fromJS (v : json) : option PerHandEntry :=
  match v, get "misses" v with
  | JObj _, Some (JNum m 0) =>
      match get "lastMissedAt" v with
      | None => Some {| entry_misses := m; entry_lastMissedAt := None |}
      | Some (JStr t) => Some {| entry_misses := m; entry_lastMissedAt := Some t |}
      | Some _ => None
      end
  | _, _ => None
  end.

Definition fromJS (v : json) : option ProgressStore :=
  match get "totalMisses" v, get "perHand" v with
  | Some (JNum total 0), Some (JObj members) =>
      entries ← mapM (fun '(k, x) => e ← entry_fromJS x; Some (k, e)) members;
      Some {| totalMisses := total; perHand := list_to_map (reverse entries) |}
  | _, _ => None
  end.

(** ** Persistence (lines 82-107) *)

(** [a ?? b] on a property read: [undefined] and [null] give [b]. *)
Definition nullish (a : option json) (b : json) : json :=
  match a with
  | None | Some JNull => b
  | Some v => v
  end.

(** [window] is [None] where [typeof window === 'undefined'];
    [localStorage.getItem] is the map lookup, and [!raw] holds of [null]
    and of the empty string.  Reading a property of the parsed value [null]
    throws a [TypeError] inside the [try], which the [catch] turns into the
    default.  The result is the JavaScript object returned, whatever the
    types of its two properties: TypeScript does not check the cast. *)
Definition loadProgressFromStorage (window : option (gmap string string)) : json :=
  match window with
  | None => toJS DEFAULT_PROGRESS
  | Some localStorage =>
      match localStorage !! LOCAL_STORAGE_KEY with
      | None | Some "" => toJS DEFAULT_PROGRESS
      | Some raw =>
          match JSON.parse raw with
          | None | Some JNull => toJS DEFAULT_PROGRESS
          | Some parsed =>
              JObj [("totalMisses", nullish (get "totalMisses" parsed) (JNum 0 0));
                    ("perHand", nullish (get "perHand" parsed) (JObj []))]
          end
      end
  end.

(** The write of lines 104-107 on a storage that takes it;
    [persistProgressWithin] is the write on a storage that may refuse it. *)
Definition persistProgress (progress : ProgressStore)
    (window : option (gmap string string)) : option (gmap string string) :=
  match window with
  | None => None
  | Some localStorage =>
      Some (<[LOCAL_STORAGE_KEY := JSON.stringify (toJS progress)]> localStorage)
  end.

(** ** Weighted draw (lines 109-125) *)

Definition totalWeight (hands : list HandRecord) : Z :=
  fold_left (fun sum hand => sum + ensureMinimumMisses (misses hand)) hands 0.

(** The [for] loop: [None] when it runs off the end of the array. *)
Fixpoint walk (threshold : Q) (hands : list HandRecord) : option HandRecord :=
  match hands with
  | [] => None
  | hand :: rest =>
      let threshold := (threshold - inject_Z (ensureMinimumMisses (misses hand)))%Q in
      if Qle_bool threshold 0 then Some hand else walk threshold rest
  end.

(** [random] is the value of [Math.random()]; the product and the
    subtractions of the loop are exact here, and rounded in [pickRounded]. *)
Definition pickWeightedHand (random : Q) (hands : list HandRecord) : option HandRecord :=
  if (length hands =? 0)%nat then None
  else
    let threshold := (random * inject_Z (totalWeight hands))%Q in
    match walk threshold hands with
    | Some hand => Some hand
    | None => hands !! (length hands - 1)%nat
    end.

(** ** The component's state and handlers (lines 127-253) *)

(** The [useState] cells the handlers touch, and the browser storage. *)
Record AppState := {
  hands : list HandRecord;
  currentHand : option HandRecord;
  answerStatus : AnswerStatus;
  selectedValue : option Z;
  progress : ProgressStore;
  window : option (gmap string string);
}.

(** [{ ...hand, misses: incrementedMisses, lastMissedAt: timestamp }] *)
Definition withMiss (hand : HandRecord) (incrementedMisses : Z) (timestamp : string)
    : HandRecord :=
  {| Hand := Hand hand; Color := Color hand; Players := Players hand;
     misses := incrementedMisses; lastMissedAt := Some timestamp |}.

(** The updater of lines 235-244. *)
Definition recordMiss (key : string) (incrementedMisses : Z) (timestamp : string)
    (prev : ProgressStore) : ProgressStore :=
  {| totalMisses := totalMisses prev + 1;
     perHand := <[key := {| entry_misses := incrementedMisses;
                            entry_lastMissedAt := Some timestamp |}]> (perHand prev) |}.

(** [updateProgress]: the new store is persisted as it is set. *)
Definition updateProgress (updater : ProgressStore -> ProgressStore) (st : AppState)
    : AppState :=
  let next := updater (progress st) in
  {| hands := hands st; currentHand := currentHand st;
     answerStatus := answerStatus st; selectedValue := selectedValue st;
     progress := next; window := persistProgress next (window st) |}.

(** [timestamp] is the value of [new Date().toISOString()], read only when
    the answer is wrong.  [st] is both the state the handler's render showed
    and the state the setters act on; [handleAnswerFrom] tells them apart. *)
Definition handleAnswer (value : Z) (timestamp : string) (st : AppState) : AppState :=
  match currentHand st, answerStatus st with
  | Some current, idle =>
      let isCorrect := value =? Players current in
      if isCorrect then
        {| hands := hands st; currentHand := currentHand st;
           answerStatus := correct; selectedValue := Some value;
           progress := progress st; window := window st |}
      else
        let incrementedMisses := misses current + 1 in
        updateProgress (recordMiss (Hand current) incrementedMisses timestamp)
          {| hands :=
               map (fun hand =>
                      if String.eqb (Hand hand) (Hand current)
                      then withMiss hand incrementedMisses timestamp
                      else hand)
                   (hands st);
             currentHand := Some (withMiss current incrementedMisses timestamp);
             answerStatus := incorrect; selectedValue := Some value;
             progress := progress st; window := window st |}
  | _, _ => st
  end.

Definition handleNext (random : Q) (st : AppState) : AppState :=
  if (length (hands st) =? 0)%nat then st
  else
    {| hands := hands st; currentHand := pickWeightedHand random (hands st);
       answerStatus := idle; selectedValue := None;
       progress := progress st; window := window st |}.

(** *** Start-up (lines 163-186) *)

(** [RawHandRecord]: a row as [Papa.parse] delivers it, every field a string. *)
Module RawHandRecord.
Record t := { Hand : string; Color : string; Players : string; misses : string }.
End RawHandRecord.

(** A row after the field conversions of lines 172-175, before the floor on
    its weight and before the stored record is looked up. *)
Record ParsedRow := {
  row_Hand : string;
  row_Color : string;
  row_Players : Z;
  row_misses : Z;
}.

Section Table.

(** The runtime's [Number(value)] when it is finite ([None] for [NaN] and
    the infinities; the table holds integers), and [String.prototype.trim]. *)
Variable Number : string → option Z.
Variable trim : string → string.

Definition parseNumber (value : string) (fallback : Z) : Z :=
  match Number value with
  | Some parsed => parsed
  | None => fallback
  end.

Definition parseRow (row : RawHandRecord.t) : ParsedRow :=
  {| row_Hand := trim (RawHandRecord.Hand row);
     row_Color := trim (RawHandRecord.Color row);
     row_Players := parseNumber (RawHandRecord.Players row) 0;
     row_misses := parseNumber (RawHandRecord.misses row) 1 |}.

(** The [filter] of lines 167-169 drops the rows with an empty [Hand]. *)
Definition parseTable (data : list RawHandRecord.t) : list ParsedRow :=
  map parseRow (filter (fun row => RawHandRecord.Hand row ≠ "") data).

End Table.

(** The [map] callback of lines 170-183: the floor on the table's weight,
    then the saved record, if any, in its place. *)
Definition normalizeHand (storedProgress : ProgressStore) (row : ParsedRow) : HandRecord :=
  let base_misses := ensureMinimumMisses (row_misses row) in
  let saved := perHand storedProgress !! row_Hand row in
  {| Hand := row_Hand row; Color := row_Color row; Players := row_Players row;
     misses := match saved with
               | Some e => entry_misses e
               | None => base_misses
               end;
     lastMissedAt := saved ≫= entry_lastMissedAt |}.

(** The state [bootstrap] leaves when the table was fetched and parsed and
    the stored progress has the [ProgressStore] shape.  [None] stands for a
    stored object of another shape (a total or a count that is no whole
    number, a record without count): the component starts on those as well,
    with values [AppState] has no type for, and nothing is stated about
    them. *)
Definition bootstrap (rows : list ParsedRow) (random : Q)
    (window : option (gmap string string)) : option AppState :=
  storedProgress ← fromJS (loadProgressFromStorage window);
  let normalizedHands := map (normalizeHand storedProgress) rows in
  Some {| hands := normalizedHands;
          currentHand := pickWeightedHand random normalizedHands;
          answerStatus := idle; selectedValue := None;
          progress := storedProgress; window := window |}.

(** ** Coherence of a state *)

(** On the states the program reaches from a start-up on well-formed
    progress, an item that has a stored record carries that record's count,
    and the current item is one of the items. *)
Definition coherent (st : AppState) : Prop :=
  (∀ h e, h ∈ hands st → perHand (progress st) !! Hand h = Some e →
          misses h = entry_misses e)
  ∧ (∀ h, currentHand st = Some h → h ∈ hands st).

(** The states of a session: the one start-up leaves, followed by any
    sequence of answers and requests for the next item. *)
Inductive reachable : AppState → Prop :=
| reachable_bootstrap rows random window st :
    bootstrap rows random window = Some st → reachable st
| reachable_answer value timestamp st :
    reachable st → reachable (handleAnswer value timestamp st)
| reachable_next random st :
    reachable st → reachable (handleNext random st).

(** ** Example data *)

(** The one-row table of the end-to-end scenarios. *)
Definition rawAA : RawHandRecord.t :=
  {| RawHandRecord.Hand := "AA"; RawHandRecord.Color := "紺";
     RawHandRecord.Players := "2"; RawHandRecord.misses := "1" |}.

Definition rowAA : ParsedRow :=
  {| row_Hand := "AA"; row_Color := "紺"; row_Players := 2; row_misses := 1 |}.

Definition handAA : HandRecord :=
  {| Hand := "AA"; Color := "紺"; Players := 2; misses := 1; lastMissedAt := None |}.

Definition stateAA : AppState :=
  {| hands := [handAA]; currentHand := Some handAA; answerStatus := idle;
     selectedValue := None; progress := DEFAULT_PROGRESS; window := Some ∅ |}.

(** An item whose stored weight is 0. *)
Definition handLow : HandRecord :=
  {| Hand := "72o"; Color := "グレー"; Players := 0; misses := 0; lastMissedAt := None |}.

(** The stored text [{"totalMisses":null}], built by printing its value. *)
Definition blob_null_total : string :=
  JSON.stringify (JObj [("totalMisses", JNull)]).

(** The stored text [{"totalMisses":5}]. *)
Definition blob_total_only : string :=
  JSON.stringify (JObj [("totalMisses", JNum 5 0)]).

(** ** The rest of the component *)

(** *** The effect of lines 199-202 *)

(** It gives the quiz a current item when there are items and none is
    current. *)
Definition ensureCurrentHand (random : Q) (st : AppState) : AppState :=
  if (length (hands st) =? 0)%nat then st
  else
    match currentHand st with
    | Some _ => st
    | None =>
        {| hands := hands st; currentHand := pickWeightedHand random (hands st);
           answerStatus := answerStatus st; selectedValue := selectedValue st;
           progress := progress st; window := window st |}
    end.

(** The states a quiz goes through from the state [st0]: answers, requests
    for the next item and runs of the effect, in any order. *)
Inductive run (st0 : AppState) : AppState → Prop :=
| run_start : run st0 st0
| run_answer value timestamp st :
    run st0 st → run st0 (handleAnswer value timestamp st)
| run_next random st :
    run st0 st → run st0 (handleNext random st)
| run_effect random st :
    run st0 st → run st0 (ensureCurrentHand random st).

(** The sum of the weights stored in the items. *)
Definition sumMisses (hands : list HandRecord) : Z :=
  foldr (fun hand sum => misses hand + sum) 0 hands.

(** *** What the quiz screen shows (lines 282-345) *)

(** [currentHand?.Hand ?? '--'] *)
Definition handLabel (st : AppState) : string :=
  match currentHand st with
  | Some current => Hand current
  | None => "--"
  end.

(** The [disabled] attribute of the answer buttons:
    [!currentHand || answerStatus !== 'idle']. *)
Definition answerDisabled (st : AppState) : bool :=
  match currentHand st with None => true | Some _ => false end
  || match answerStatus st with idle => false | _ => true end.

(** The [disabled] attribute of the next button: [answerStatus === 'idle']. *)
Definition nextDisabled (st : AppState) : bool :=
  match answerStatus st with
  | idle => true
  | _ => false
  end.

(** The result banner, when it is rendered: its verdict, and the [Players]
    and [Color] of the current item. *)
Definition resultBanner (st : AppState) : option (string * Z * string) :=
  match answerStatus st, currentHand st with
  | idle, _ => None
  | _, None => None
  | status, Some current =>
      Some (match status with correct => "正解！" | _ => "不正解…" end,
            Players current, Color current)
  end.

(** *** The answer buttons and their colours (lines 33-44, 53-70, 79-80, 204-210) *)

Definition PLAYER_OPTIONS : list Z := [0; 1; 2; 3; 5; 7; 8; 9; 10].

Definition PLAYER_COLOR_LABEL_MAP : gmap Z string :=
  list_to_map
    [(0, "グレー"); (1, "ピンク"); (2, "紫"); (3, "白"); (5, "水色");
     (7, "緑"); (8, "オレンジ"); (9, "赤"); (10, "紺")].

Record Theme := {
  background : string;
  text : string;
}.

(** [COLOR_THEME.default] *)
Definition COLOR_THEME_default : Theme :=
  {| background := "#0ea5e9"; text := "#f0f9ff" |}.

Definition COLOR_THEME : gmap string Theme :=
  list_to_map
    [("紺", {| background := "#1c2a59"; text := "#f7faff" |});
     ("赤", {| background := "#d7263d"; text := "#fff5f7" |});
     ("緑", {| background := "#2ca58d"; text := "#f2fffb" |});
     ("オレンジ", {| background := "#f25f29"; text := "#fff8f0" |});
     ("白", {| background := "#f5f5f5"; text := "#1f2933" |});
     ("水色", {| background := "#33a0ff"; text := "#f0f9ff" |});
     ("紫", {| background := "#8a4fff"; text := "#f9f5ff" |});
     ("ピンク", {| background := "#ff6bb5"; text := "#fff5f8" |});
     ("グレー", {| background := "#9aa0a6"; text := "#1f1f1f" |});
     ("default", COLOR_THEME_default)].

(** The property names every object literal inherits from
    [Object.prototype]: [COLOR_THEME[name]] is a function or an object for
    them, not [undefined]. *)
Definition OBJECT_PROTOTYPE_NAMES : list string :=
  ["constructor"; "hasOwnProperty"; "isPrototypeOf"; "propertyIsEnumerable";
   "toLocaleString"; "toString"; "valueOf"; "__proto__";
   "__defineGetter__"; "__defineSetter__"; "__lookupGetter__"; "__lookupSetter__"].

(** What [COLOR_THEME[colorLabel] ?? COLOR_THEME.default] evaluates to: a
    theme of the table, or the inherited member of that name, which has
    neither [background] nor [text]. *)
Inductive ThemeLookup :=
  | OwnTheme (theme : Theme)
  | Inherited (name : string).

Definition getColorTheme (colorLabel : string) : ThemeLookup :=
  match COLOR_THEME !! colorLabel with
  | Some theme => OwnTheme theme
  | None =>
      if bool_decide (colorLabel ∈ OBJECT_PROTOTYPE_NAMES)
      then Inherited colorLabel
      else OwnTheme COLOR_THEME_default
  end.

(** The theme of the button of [value] (lines 302-304). *)
Definition buttonTheme (value : Z) : ThemeLookup :=
  getColorTheme
    match PLAYER_COLOR_LABEL_MAP !! value with
    | Some label => label
    | None => "default"
    end.

(** The two rows of buttons; [midpoint] is [Math.ceil(length / 2)]. *)
Definition playerRows : list (list Z) :=
  let midpoint := ((length PLAYER_OPTIONS + 1) / 2)%nat in
  [take midpoint PLAYER_OPTIONS; drop midpoint PLAYER_OPTIONS].

(** *** The table rows when a column is missing (lines 166-176) *)

(** A row as the run time may hold it: a column that the header lacks is
    [undefined] in every row, whatever the type [RawHandRecord] says. *)
Record PapaRow := {
  papa_Hand : option string;
  papa_Color : option string;
  papa_Players : option string;
  papa_misses : option string;
}.

(** [Boolean(row?.Hand)]: the key is there and is not the empty string. *)
Definition keyed (row : PapaRow) : bool :=
  match papa_Hand row with
  | Some "" | None => false
  | Some _ => true
  end.

Section MissingColumns.

Variable Number : string → option Z.
Variable trim : string → string.

(** [parseNumber] on a field that may be [undefined]: [Number(undefined)]
    is [NaN]. *)
Definition parseField (value : option string) (fallback : Z) : Z :=
  match value with
  | Some text => parseNumber Number text fallback
  | None => fallback
  end.

(** The fields of [base] read from the row; [None] where [.trim()] is called
    on [undefined] and throws a [TypeError]. *)
Definition convertRow (row : PapaRow) : option ParsedRow :=
  hand ← papa_Hand row;
  color ← papa_Color row;
  Some {| row_Hand := trim hand; row_Color := trim color;
          row_Players := parseField (papa_Players row) 0;
          row_misses := parseField (papa_misses row) 1 |}.

(** The [filter] and the field conversions of the [map]; the first row that
    throws ends the whole start-up in its [catch]. *)
Definition convertTable (data : list PapaRow) : option (list ParsedRow) :=
  mapM convertRow (filter (fun row => keyed row = true) data).

End MissingColumns.

(** The row of strings as a row whose four fields are all there. *)
Definition papaOf (row : RawHandRecord.t) : PapaRow :=
  {| papa_Hand := Some (RawHandRecord.Hand row);
     papa_Color := Some (RawHandRecord.Color row);
     papa_Players := Some (RawHandRecord.Players row);
     papa_misses := Some (RawHandRecord.misses row) |}.

(** ** Refinements of the handlers and of the draw *)

(** *** A storage that refuses a write (lines 104-107, 136-142) *)

(** [window.localStorage.setItem]: it throws ([None]) when the value does not
    fit; [quota] is the length of the longest value the storage still takes
    (0 for a storage that takes nothing). *)
Definition setItem (quota : nat) (key value : string)
    (localStorage : gmap string string) : option (gmap string string) :=
  if (String.length value <=? quota)%nat
  then Some (<[key := value]> localStorage)
  else None.

(** [persistProgress] has no [try]: what [setItem] throws leaves it. *)
Definition persistProgressWithin (quota : nat) (progress : ProgressStore)
    (window : option (gmap string string)) : option (option (gmap string string)) :=
  match window with
  | None => Some None
  | Some localStorage =>
      match setItem quota LOCAL_STORAGE_KEY (JSON.stringify (toJS progress)) localStorage with
      | Some localStorage' => Some (Some localStorage')
      | None => None
      end
  end.

(** [handleAnswer] over such a storage: [None] when the exception of
    [setItem] leaves the updater handed to [setProgress] (nothing catches it
    in the component), [Some] of the next state otherwise. *)
Definition handleAnswerWithin (quota : nat) (value : Z) (timestamp : string)
    (st : AppState) : option AppState :=
  match currentHand st, answerStatus st with
  | Some current, idle =>
      let isCorrect := value =? Players current in
      if isCorrect then
        Some {| hands := hands st; currentHand := currentHand st;
                answerStatus := correct; selectedValue := Some value;
                progress := progress st; window := window st |}
      else
        let incrementedMisses := misses current + 1 in
        let next := recordMiss (Hand current) incrementedMisses timestamp (progress st) in
        match persistProgressWithin quota next (window st) with
        | None => None
        | Some window' =>
            Some {| hands :=
                      map (fun hand =>
                             if String.eqb (Hand hand) (Hand current)
                             then withMiss hand incrementedMisses timestamp
                             else hand)
                          (hands st);
                    currentHand := Some (withMiss current incrementedMisses timestamp);
                    answerStatus := incorrect; selectedValue := Some value;
                    progress := next; window := window' |}
        end
  | _, _ => Some st
  end.

(** *** The handler as the closure of a render (lines 212-246) *)

(** [handleAnswer] is created anew by every render and reads [currentHand]
    and [answerStatus] as that render saw them ([render]); the guard, the
    comparison, the key and the incremented count come from there.  The
    setters act on the cells as they are when the call is made ([st]):
    [setHands], [setCurrentHand] and [setProgress] are given functions of the
    previous value.  [handleAnswer value timestamp st] is the call made by
    the handler of the render that shows [st]. *)
Definition handleAnswerFrom (render : AppState) (value : Z) (timestamp : string)
    (st : AppState) : AppState :=
  match currentHand render, answerStatus render with
  | Some current, idle =>
      let isCorrect := value =? Players current in
      if isCorrect then
        {| hands := hands st; currentHand := currentHand st;
           answerStatus := correct; selectedValue := Some value;
           progress := progress st; window := window st |}
      else
        let incrementedMisses := misses current + 1 in
        updateProgress (recordMiss (Hand current) incrementedMisses timestamp)
          {| hands :=
               map (fun hand =>
                      if String.eqb (Hand hand) (Hand current)
                      then withMiss hand incrementedMisses timestamp
                      else hand)
                   (hands st);
             currentHand :=
               match currentHand st with
               | Some prev => Some (withMiss prev incrementedMisses timestamp)
               | None => None
               end;
             answerStatus := incorrect; selectedValue := Some value;
             progress := progress st; window := window st |}
  | _, _ => st
  end.

(** *** The draw from its threshold (lines 113-124) *)

(** [pickWeightedHand] once [threshold] holds the product
    [Math.random() * totalWeight] as the runtime computed it. *)
Definition pickAt (threshold : Q) (hands : list HandRecord) : option HandRecord :=
  if (length hands =? 0)%nat then None
  else
    match walk threshold hands with
    | Some hand => Some hand
    | None => hands !! (length hands - 1)%nat
    end.

(** *** The draw in rounded arithmetic (lines 113-124) *)

(** The loop and the draw with every arithmetic result rounded as the
    runtime's numbers are: [round] stands for the rounding to the nearest
    double, applied to the product and to each subtraction.  With the
    identity for [round] these are [walk] and [pickWeightedHand]. *)
Fixpoint walkRounded (round : Q → Q) (threshold : Q) (hands : list HandRecord)
    : option HandRecord :=
  match hands with
  | [] => None
  | hand :: rest =>
      let threshold :=
        round (threshold - inject_Z (ensureMinimumMisses (misses hand)))%Q in
      if Qle_bool threshold 0 then Some hand else walkRounded round threshold rest
  end.

Definition pickRounded (round : Q → Q) (random : Q) (hands : list HandRecord)
    : option HandRecord :=
  if (length hands =? 0)%nat then None
  else
    let threshold := round (random * inject_Z (totalWeight hands))%Q in
    match walkRounded round threshold hands with
    | Some hand => Some hand
    | None => hands !! (length hands - 1)%nat
    end.

(** ** The JSON model on sample texts *)

Example parse_sample_numbers :
  parse " [1e3, 1.50, -0, 12E-1, 10.25e1] "
  = Some (JArr [JNum 1000 0; JNum 15 1; JNum 0 0; JNum 12 1; JNum 1025 1]).
Proof. reflexivity. Qed.

Example parse_sample_escapes :
  parse (String dquote ("\u0041\n\ud83d\ude00\/" ++ String dquote ""))
  = Some (JStr ("A" ++ String "010" "😀/")).
Proof. reflexivity. Qed.

Example parse_sample_rejected :
  parse "" = None ∧ parse "tru" = None ∧ parse "[1,]" = None ∧ parse "01" = None
  ∧ parse "{" = None ∧ parse "1 2" = None ∧ parse "not json" = None.
Proof. repeat split; reflexivity. Qed.

Example parse_sample_repeated_key :
  get "a" <$> parse (stringify (JObj [("a", JNum 1 0); ("a", JNum 2 0)]))
  = Some (Some (JNum 2 0)).
Proof. reflexivity. Qed.

Example stringify_sample_numbers :
  stringify (JArr [JNum (-15) 1; JNum 5 3; JNum 1000 0; JNum 0 0])
  = "[-1.5,0.005,1000,0]".
Proof. reflexivity. Qed.

Example stringify_sample_escapes :
  stringify (JStr (String "010" (String dquote (String "031" "\"))))
  = String dquote ("\n\" ++ String dquote ("\u001f\\" ++ String dquote "")).
Proof. reflexivity. Qed.

Example stringify_sample_store :
  stringify (toJS {| totalMisses := 1;
                     perHand := {["AA" := {| entry_misses := 2;
                                             entry_lastMissedAt := None |}]} |})
  = stringify (JObj [("totalMisses", JNum 1 0);
                     ("perHand", JObj [("AA", JObj [("misses", JNum 2 0)])])]).
Proof. reflexivity. Qed.

(** ** Facts about the JSON model *)

Lemma append_cons c (s t : string) : String c s ++ t = String c (s ++ t).
Proof. reflexivity. Qed.

Lemma append_nil_l (t : string) : "" ++ t = t.
Proof. reflexivity. Qed.

Lemma append_assoc (s t u : string) : (s ++ t) ++ u = s ++ (t ++ u).
Proof. induction s as [|c s IH]; [done|]. by rewrite !append_cons, IH. Qed.

Ltac norm_append := rewrite ?append_assoc, ?append_cons, ?append_nil_l.


Lemma parse_string_escape_char c t :
  parse_string (escape_char c ++ t) = prepend (String c "") (parse_string t).
Proof.
  destruct c as [[] [] [] [] [] [] [] []]; reflexivity.
Qed.

Lemma parse_string_escape s rest :
  parse_string (escape s ++ String dquote rest) = Some (s, rest).
Proof.
  induction s as [|c s IH]; [done|].
  simpl escape. rewrite append_assoc, parse_string_escape_char, IH. done.
Qed.

Lemma split_digits_no_digit rest : no_digit_head rest → split_digits rest = (Nil, rest).
Proof. destruct rest as [|c r]; simpl; [done|]. by intros ->. Qed.

Lemma split_digits_print u rest :
  no_digit_head rest →
  split_digits (NilEmpty.string_of_uint u ++ rest) = (u, rest).
Proof.
  intros Hrest. induction u; simpl NilEmpty.string_of_uint;
    [by apply split_digits_no_digit | rewrite append_cons; simpl; by rewrite IHu ..].
Qed.

Lemma nzhead_not_D0 u u' : nzhead u ≠ D0 u'.
Proof. induction u; simpl; congruence. Qed.

Lemma to_uint_head p u' : Pos.to_uint p ≠ D0 u'.
Proof.
  intros Hp.
  pose proof (DecimalPos.Unsigned.to_of (Pos.to_uint p)) as H.
  rewrite DecimalPos.Unsigned.of_to in H. simpl in H. rewrite Hp in H.
  rewrite DecimalFacts.unorm_D0 in H. unfold unorm in H.
  destruct (nzhead u') eqn:Hn.
  all: try (symmetry in H; discriminate H).
  - injection H as ->. by apply (DecimalPos.Unsigned.to_uint_nonzero p).
  - by apply (nzhead_not_D0 u' u).
Qed.

Lemma parse_int_print n rest :
  no_digit_head rest →
  parse_int (print_N n ++ rest) = Some (N.to_uint n, rest).
Proof.
  intros Hrest. unfold print_N. destruct n as [|p]; [done|]. simpl N.to_uint.
  pose proof (to_uint_head p) as Hhead.
  pose proof (DecimalPos.Unsigned.to_uint_nonnil p) as Hnil.
  pose proof (split_digits_print (Pos.to_uint p) rest Hrest) as Hsplit.
  destruct (Pos.to_uint p) as [|u|u|u|u|u|u|u|u|u|u]; try done;
    try (by exfalso; eapply Hhead);
    simpl NilEmpty.string_of_uint in *; rewrite append_cons in *;
    unfold parse_int, some_digits; simpl Ascii.eqb; cbv iota; by rewrite Hsplit.
Qed.

Lemma delimited_no_digit rest : delimited rest → no_digit_head rest.
Proof. destruct rest as [|c r]; [done|]. by intros [-> | [-> | ->]]. Qed.

Lemma delimited_frac rest : delimited rest → parse_frac rest = Some (Nil, rest).
Proof. destruct rest as [|c r]; [done|]. by intros [-> | [-> | ->]]. Qed.

Lemma delimited_exp rest : delimited rest → parse_exp rest = Some (0, rest).
Proof. destruct rest as [|c r]; [done|]. by intros [-> | [-> | ->]]. Qed.

Lemma print_N_head n rest :
  ∃ c s, print_N n ++ rest = String c s ∧ is_Some (digit c).
Proof.
  unfold print_N.
  assert (N.to_uint n ≠ Nil) as Hnil.
  { destruct n; [done|]. apply DecimalPos.Unsigned.to_uint_nonnil. }
  destruct (N.to_uint n); [done|..]; simpl NilEmpty.string_of_uint;
    rewrite append_cons; eexists _, _; (split; [reflexivity|]); by eexists.
Qed.

Lemma print_number_head m rest :
  ∃ c s, print_number m 0 ++ rest = String c s ∧ number_head c = true.
Proof.
  unfold print_number. destruct (m <? 0).
  - eexists _, _. split; [reflexivity|done].
  - destruct (print_N_head (Z.abs_N m) rest) as (c & s & Heq & Hc).
    exists c, s. split; [done|]. unfold number_head.
    rewrite bool_decide_eq_true_2 by done. apply orb_true_r.
Qed.

Lemma number_value_int neg n :
  number_value neg (N.to_uint n) Nil 0
  = JNum (if neg then - Z.of_N n else Z.of_N n) 0.
Proof.
  unfold number_value. simpl nb_digits. rewrite DecimalN.Unsigned.of_to.
  change (N.of_uint Nil) with 0%N. change (0 <=? 0 - Z.of_nat 0) with true.
  cbv iota. f_equal. change (10 ^ (0 - Z.of_nat 0)) with 1.
  change (10 ^ N.of_nat 0)%N with 1%N.
  rewrite N.mul_1_r, N.add_0_r. destruct neg; lia.
Qed.

Lemma parse_number_print m rest :
  delimited rest →
  parse_number (print_number m 0 ++ rest) = Some (JNum m 0, rest).
Proof.
  intros Hrest. unfold print_number, parse_number.
  destruct (m <? 0) eqn:Hm.
  - rewrite append_assoc. change ("-" ++ ?s) with (String "-" s).
    cbv beta iota. change ("-" =? "-")%char with true. cbv iota.
    rewrite parse_int_print by by apply delimited_no_digit. simpl.
    rewrite delimited_frac by done. simpl. rewrite delimited_exp by done. simpl.
    rewrite number_value_int. do 3 f_equal. apply Z.ltb_lt in Hm. lia.
  - change ("" ++ ?s) with s.
    destruct (print_N_head (Z.abs_N m) rest) as (c & s & Heq & Hc).
    assert ((c =? "-")%char = false) as Hsign.
    { destruct (Ascii.eqb_spec c "-") as [->|]; [|done]. by destruct Hc. }
    rewrite Heq, Hsign, <- Heq.
    rewrite parse_int_print by by apply delimited_no_digit. simpl.
    rewrite delimited_frac by done. simpl. rewrite delimited_exp by done. simpl.
    rewrite number_value_int. do 3 f_equal. apply Z.ltb_ge in Hm. lia.
Qed.

Lemma json_ind' (P : json → Prop) :
  P JNull → (∀ b, P (JBool b)) → (∀ m d, P (JNum m d)) → (∀ s, P (JStr s)) →
  (∀ items, Forall P items → P (JArr items)) →
  (∀ members, Forall (λ kv, P kv.2) members → P (JObj members)) →
  ∀ v, P v.
Proof.
  intros Hnull Hbool Hnum Hstr Harr Hobj.
  fix IH 1. intros [| b | m d | s | items | members].
  - exact Hnull.
  - apply Hbool.
  - apply Hnum.
  - apply Hstr.
  - apply Harr. induction items as [|x items IHitems]; constructor;
      [apply IH | exact IHitems].
  - apply Hobj. induction members as [|[k x] members IHm]; constructor;
      [apply IH | exact IHm].
Qed.

Lemma number_head_value_head c : number_head c = true → value_head c = true.
Proof. unfold value_head. intros ->. by rewrite !orb_true_r. Qed.

Lemma value_head_facts c :
  value_head c = true →
  is_ws c = false ∧ (c =? "]")%char = false ∧ (c =? "}")%char = false.
Proof. destruct c as [[] [] [] [] [] [] [] []]; by intros. Qed.

Lemma parse_value_number fuel c s :
  number_head c = true →
  parse_value (S fuel) (String c s) = parse_number (String c s).
Proof. destruct c as [[] [] [] [] [] [] [] []]; by intros. Qed.

Lemma stringify_head v rest :
  integral v = true →
  ∃ c s, stringify v ++ rest = String c s ∧ value_head c = true.
Proof.
  destruct v as [| [] | m d | s | items | members]; simpl; intros Hint;
    try (by eexists _, _).
  apply bool_decide_eq_true in Hint as ->.
  destruct (print_number_head m rest) as (c & s & Heq & Hc).
  exists c, s. split; [done|]. by apply number_head_value_head.
Qed.


Lemma parse_elements_last fuel s v rest :
  parse_value fuel s = Some (v, String "]" rest) →
  parse_elements (S fuel) s = Some ([v], rest).
Proof. intros H. simpl. by rewrite H. Qed.

Lemma parse_elements_more fuel s v r vs rest :
  parse_value fuel s = Some (v, String "," r) →
  parse_elements fuel r = Some (vs, rest) →
  parse_elements (S fuel) s = Some (v :: vs, rest).
Proof. intros H1 H2. simpl. rewrite H1. simpl. by rewrite H2. Qed.

Lemma parse_members_last fuel k s v rest :
  parse_value fuel s = Some (v, String "}" rest) →
  parse_members (S fuel) (quote k ++ String ":" s) = Some ([(k, v)], rest).
Proof.
  intros H. unfold quote. rewrite append_cons, append_assoc, append_cons.
  simpl. rewrite parse_string_escape. simpl. by rewrite H.
Qed.

Lemma parse_members_more fuel k s v r ms rest :
  parse_value fuel s = Some (v, String "," r) →
  parse_members fuel r = Some (ms, rest) →
  parse_members (S fuel) (quote k ++ String ":" s) = Some ((k, v) :: ms, rest).
Proof.
  intros H1 H2. unfold quote. rewrite append_cons, append_assoc, append_cons.
  simpl. rewrite parse_string_escape. simpl. rewrite H1. simpl. by rewrite H2.
Qed.

Lemma parse_value_array fuel c s vs rest :
  value_head c = true →
  parse_elements fuel (String c s) = Some (vs, rest) →
  parse_value (S fuel) (String "[" (String c s)) = Some (JArr vs, rest).
Proof.
  intros Hc H. destruct (value_head_facts c Hc) as (Hws & Hclose & _).
  simpl. rewrite Hws, Hclose. by rewrite H.
Qed.

Lemma parse_value_object fuel s ms rest :
  parse_members fuel (String dquote s) = Some (ms, rest) →
  parse_value (S fuel) (String "{" (String dquote s)) = Some (JObj ms, rest).
Proof. intros H. simpl. simpl in H. by rewrite H. Qed.

Lemma parse_elements_print items :
  Forall reads_back items → forallb integral items = true → items ≠ [] →
  ∀ fuel rest, (length items + list_sum (map size items) ≤ fuel)%nat →
  parse_elements fuel (join "," (map stringify items) ++ String "]" rest)
  = Some (items, rest).
Proof.
  induction 1 as [|x items Hx _ IH]; [done|]. intros Hint _ fuel rest Hfuel.
  simpl in Hint. apply andb_true_iff in Hint as [Hix Hil].
  destruct fuel as [|fuel]; [simpl in Hfuel; lia|].
  destruct items as [|y items].
  - simpl join. apply parse_elements_last, Hx; [done| simpl in Hfuel; lia | simpl; auto].
  - change (join "," (map stringify (x :: y :: items)))
      with (stringify x ++ "," ++ join "," (map stringify (y :: items))).
    rewrite !append_assoc. eapply parse_elements_more.
    + apply Hx; [done| simpl in Hfuel; lia | simpl; auto].
    + apply IH; [done..|]. simpl in *. lia.
Qed.

Lemma parse_members_print members :
  Forall (λ kv, reads_back kv.2) members →
  forallb (fun '(_, x) => integral x) members = true → members ≠ [] →
  ∀ fuel rest,
    (length members + list_sum (map (fun '(_, x) => size x) members) ≤ fuel)%nat →
    parse_members fuel
      (join "," (map (fun '(k, x) => quote k ++ ":" ++ stringify x) members)
       ++ String "}" rest)
    = Some (members, rest).
Proof.
  induction 1 as [|[k x] members Hx _ IH]; [done|]. intros Hint _ fuel rest Hfuel.
  simpl in Hint. apply andb_true_iff in Hint as [Hix Hil]. simpl in Hx.
  destruct fuel as [|fuel]; [simpl in Hfuel; lia|].
  destruct members as [|[k' y] members].
  - simpl join. rewrite !append_assoc. apply parse_members_last, Hx;
      [done| simpl in Hfuel; lia | simpl; auto].
  - change (join "," (map (fun '(k, x) => quote k ++ ":" ++ stringify x)
                          ((k, x) :: (k', y) :: members)))
      with ((quote k ++ ":" ++ stringify x) ++ "," ++
            join "," (map (fun '(k, x) => quote k ++ ":" ++ stringify x)
                          ((k', y) :: members))).
    rewrite !append_assoc. eapply parse_members_more.
    + apply Hx; [done| simpl in Hfuel; lia | simpl; auto].
    + apply IH; [done..|]. simpl in *. lia.
Qed.

Lemma parse_value_print v : reads_back v.
Proof.
  induction v as [| b | m d | s | items IH | members IH] using json_ind';
    intros Hint fuel rest Hfuel Hrest;
    (destruct fuel as [|fuel]; [simpl in Hfuel; lia|]).
  - done.
  - by destruct b.
  - simpl in Hint. apply bool_decide_eq_true in Hint as ->. simpl stringify.
    destruct (print_number_head m rest) as (c & s & Heq & Hc).
    rewrite Heq, parse_value_number, <- Heq by done.
    by apply parse_number_print.
  - simpl stringify. unfold quote. rewrite append_cons, append_assoc, append_cons.
    simpl. by rewrite parse_string_escape.
  - simpl stringify. norm_append.
    destruct items as [|x items]; [done|].
    pose proof (parse_elements_print (x :: items) IH Hint ltac:(done) fuel rest
                  ltac:(simpl in *; lia)) as Hel.
    apply Forall_inv in IH. simpl in Hint. apply andb_true_iff in Hint as [Hix _].
    revert Hel. set (tail := String "]" rest).
    assert (∃ c s, join "," (map stringify (x :: items)) ++ tail = String c s
                   ∧ value_head c = true) as (c & s & -> & Hc).
    { destruct items; simpl join; rewrite ?append_assoc; by apply stringify_head. }
    intros Hel. by apply parse_value_array.
  - simpl stringify. norm_append.
    destruct members as [|[k x] members]; [done|].
    pose proof (parse_members_print ((k, x) :: members) IH Hint ltac:(done) fuel rest
                  ltac:(simpl in *; lia)) as Hel.
    revert Hel. set (tail := String "}" rest).
    assert (∃ s, join "," (map (fun '(k, x) => quote k ++ ":" ++ stringify x)
                               ((k, x) :: members)) ++ tail = String dquote s)
      as (s & ->).
    { destruct members; simpl join; unfold quote; rewrite ?append_assoc, ?append_cons;
        by eexists. }
    intros Hel. by apply parse_value_object.
Qed.

Lemma append_nil_r (s : string) : s ++ "" = s.
Proof. induction s as [|c s IH]; [done|]. by rewrite append_cons, IH. Qed.

Lemma length_append (s t : string) :
  String.length (s ++ t) = (String.length s + String.length t)%nat.
Proof. induction s as [|c s IH]; [done|]. rewrite append_cons. simpl. by rewrite IH. Qed.

Lemma join_length_elements items :
  Forall fits items → forallb integral items = true →
  (length items + list_sum (map size items)
   ≤ 2 * String.length (join "," (map stringify items)))%nat.
Proof.
  induction 1 as [|x items Hx _ IH]; [done|]. intros Hint.
  simpl in Hint. apply andb_true_iff in Hint as [Hix Hil].
  specialize (Hx Hix). specialize (IH Hil).
  destruct items as [|y items].
  - simpl in *. lia.
  - change (join "," (map stringify (x :: y :: items)))
      with (stringify x ++ "," ++ join "," (map stringify (y :: items))).
    rewrite !length_append. simpl in *. lia.
Qed.

Lemma join_length_members members :
  Forall (λ kv, fits kv.2) members →
  forallb (fun '(_, x) => integral x) members = true →
  (length members + list_sum (map (fun '(_, x) => size x) members)
   ≤ 2 * String.length
           (join "," (map (fun '(k, x) => quote k ++ ":" ++ stringify x) members)))%nat.
Proof.
  induction 1 as [|[k x] members Hx _ IH]; [done|]. intros Hint.
  simpl in Hint. apply andb_true_iff in Hint as [Hix Hil].
  specialize (Hx Hix). specialize (IH Hil).
  destruct members as [|[k' y] members].
  - simpl join. rewrite !length_append. simpl in *. lia.
  - change (join "," (map (fun '(k, x) => quote k ++ ":" ++ stringify x)
                          ((k, x) :: (k', y) :: members)))
      with ((quote k ++ ":" ++ stringify x) ++ "," ++
            join "," (map (fun '(k, x) => quote k ++ ":" ++ stringify x)
                          ((k', y) :: members))).
    rewrite !length_append. simpl in *. lia.
Qed.

Lemma stringify_fits v : fits v.
Proof.
  induction v as [| b | m d | s | items IH | members IH] using json_ind'; intros Hint.
  - simpl. lia.
  - destruct b; simpl; lia.
  - simpl in Hint. apply bool_decide_eq_true in Hint as ->. simpl stringify.
    destruct (print_number_head m "") as (c & s & Heq & _).
    rewrite append_nil_r in Heq. rewrite Heq. simpl. lia.
  - simpl. lia.
  - pose proof (join_length_elements items IH Hint). simpl stringify.
    rewrite !length_append. simpl in *. lia.
  - pose proof (join_length_members members IH Hint). simpl stringify.
    rewrite !length_append. simpl in *. lia.
Qed.

(** [JSON.parse(JSON.stringify(v))] is [v]. *)
Lemma parse_stringify v : integral v = true → parse (stringify v) = Some v.
Proof.
  intros Hint. unfold parse.
  pose proof (parse_value_print v Hint (2 * String.length (stringify v) + 1)%nat "") as H.
  rewrite append_nil_r in H. rewrite H; [done| |done].
  pose proof (stringify_fits v Hint). lia.
Qed.

Lemma stringify_nonempty v : integral v = true → stringify v ≠ "".
Proof.
  intros Hint Heq. pose proof (stringify_fits v Hint) as H.
  rewrite Heq in H. simpl in H. lia.
Qed.

(** *** The parser never fails for lack of fuel *)

Lemma skip_ws_length s : (String.length (skip_ws s) ≤ String.length s)%nat.
Proof. induction s as [|c s IH]; simpl; [done|]. destruct (is_ws c); simpl; lia. Qed.

Lemma skip_ws_cons s c r : skip_ws s = String c r → (String.length r < String.length s)%nat.
Proof. intros H. pose proof (skip_ws_length s) as Hl. rewrite H in Hl. simpl in Hl. lia. Qed.

Lemma split_digits_length s u r :
  split_digits s = (u, r) → (String.length r ≤ String.length s)%nat.
Proof.
  revert u r. induction s as [|c s IH]; intros u r; simpl.
  - by intros [= <- <-].
  - destruct (digit c).
    + destruct (split_digits s) as [u' r'] eqn:Hs. intros [= <- <-].
      specialize (IH _ _ eq_refl). lia.
    + intros [= <- <-]. simpl. lia.
Qed.

Lemma some_digits_length s u r : some_digits s = Some (u, r) → (String.length r ≤ String.length s)%nat.
Proof.
  unfold some_digits. destruct (split_digits s) as [u' r'] eqn:Hs.
  apply split_digits_length in Hs. destruct u'; [done|..]; by intros [= <- <-].
Qed.

Lemma parse_int_length s u r : parse_int s = Some (u, r) → (String.length r < String.length s)%nat.
Proof.
  destruct s as [|c s]; [done|]. unfold parse_int.
  destruct (c =? "0")%char eqn:Hc.
  - intros [= <- <-]. simpl. lia.
  - unfold some_digits. simpl. destruct (digit c) as [D|]; [|done].
    destruct (split_digits s) as [u' r'] eqn:Hs. apply split_digits_length in Hs.
    destruct (D u'); [done|..]; intros [= <- <-]; simpl; lia.
Qed.

Lemma parse_frac_length s u r : parse_frac s = Some (u, r) → (String.length r ≤ String.length s)%nat.
Proof.
  destruct s as [|c s]; simpl; [by intros [= <- <-]|].
  destruct (c =? ".")%char.
  - intros H%some_digits_length. lia.
  - intros [= <- <-]. simpl. lia.
Qed.

Lemma parse_exp_length s x r : parse_exp s = Some (x, r) → (String.length r ≤ String.length s)%nat.
Proof.
  destruct s as [|c s]; simpl; [by intros [= <- <-]|].
  destruct ((c =? "e")%char || (c =? "E")%char).
  - destruct s as [|c' s'].
    + by destruct (some_digits "") as [[??]|] eqn:H.
    + destruct (c' =? "-")%char; [|destruct (c' =? "+")%char];
        (destruct (some_digits _) as [[u r2]|] eqn:H; [|done]);
        apply some_digits_length in H; intros [= <- <-]; simpl in *; lia.
  - intros [= <- <-]. simpl. lia.
Qed.

Lemma parse_number_length s v r : parse_number s = Some (v, r) → (String.length r < String.length s)%nat.
Proof.
  unfold parse_number.
  assert (∀ r0, (String.length r0 ≤ String.length s)%nat →
            parse_int r0 ≫= (λ '(int, r1), parse_frac r1 ≫= λ '(frac, r2),
              parse_exp r2 ≫= λ '(ex, r3), Some (number_value false int frac ex, r3))
            = Some (v, r) ∨
            parse_int r0 ≫= (λ '(int, r1), parse_frac r1 ≫= λ '(frac, r2),
              parse_exp r2 ≫= λ '(ex, r3), Some (number_value true int frac ex, r3))
            = Some (v, r) →
            (String.length r < String.length s)%nat) as Haux.
  { intros r0 Hr0 H.
    destruct (parse_int r0) as [[int r1]|] eqn:H1; [|by destruct H].
    apply parse_int_length in H1. simpl in H.
    destruct (parse_frac r1) as [[frac r2]|] eqn:H2; [|by destruct H].
    apply parse_frac_length in H2. simpl in H.
    destruct (parse_exp r2) as [[ex r3]|] eqn:H3; [|by destruct H].
    apply parse_exp_length in H3. simpl in H.
    destruct H as [[= _ <-] | [= _ <-]]; lia. }
  destruct s as [|c s].
  - intros H. apply (Haux ""); [done|by left].
  - destruct (c =? "-")%char.
    + intros H. apply (Haux s); [simpl; lia|by right].
    + intros H. apply (Haux (String c s)); [done|by left].
Qed.

Lemma prepend_Some p y x r : prepend p y = Some (x, r) → ∃ x', y = Some (x', r).
Proof. destruct y as [[x' r']|]; [|done]. intros [= _ <-]. by eexists. Qed.

Lemma parse_string_length n : ∀ s x r,
  (String.length s < n)%nat → parse_string s = Some (x, r) → (String.length r < String.length s)%nat.
Proof.
  induction n as [|n IH]; intros s x r Hn; [lia|].
  destruct s as [|c s]; [done|]. simpl.
  destruct (c =? dquote)%char; [intros [= _ <-]; lia|].
  destruct (c =? backslash)%char.
  2:{ destruct (N_of_ascii c <? 32)%N; [done|].
      intros [x' H]%prepend_Some. apply IH in H; simpl in *; lia. }
  destruct s as [|e r1]; [done|].
  destruct (e =? "u")%char.
  2:{ destruct (simple_escape e); [|done]. simpl.
      intros [x' H]%prepend_Some. apply IH in H; simpl in *; lia. }
  destruct r1 as [|h3 [|h2 [|h1 [|h0 r2]]]]; try done.
  destruct (hex4 h3 h2 h1 h0) as [hi|]; [|done]. simpl.
  assert (∀ p, prepend p (parse_string r2) = Some (x, r) →
               (String.length r < S (S (S (S (S (S (String.length r2)))))))%nat) as Hsingle.
  { intros p [x' H]%prepend_Some. apply IH in H; simpl in *; lia. }
  destruct ((55296 <=? hi)%N && (hi <? 56320)%N); [|by apply Hsingle].
  destruct r2 as [|b [|u [|l3 [|l2 [|l1 [|l0 r3]]]]]]; try by apply Hsingle.
  destruct ((b =? backslash)%char && (u =? "u")%char); [|by apply Hsingle].
  destruct (hex4 l3 l2 l1 l0) as [lo|]; [|by apply Hsingle].
  destruct ((56320 <=? lo)%N && (lo <? 57344)%N); [|by apply Hsingle].
  intros [x' H]%prepend_Some. apply IH in H; simpl in *; lia.
Qed.

Lemma parse_string_shorter s x r : parse_string s = Some (x, r) → (String.length r < String.length s)%nat.
Proof. apply (parse_string_length (S (String.length s))). lia. Qed.

Lemma strip_prefix_length word s r :
  strip_prefix word s = Some r → (String.length r + String.length word = String.length s)%nat.
Proof.
  revert s. induction word as [|c word IH]; intros s; simpl.
  - intros [= <-]. lia.
  - destruct s as [|c' s]; [done|]. destruct (c =? c')%char; [|done].
    intros H%IH. simpl. lia.
Qed.

Lemma literal_length word v s v' r :
  word ≠ "" → literal word v s = Some (v', r) → (String.length r < String.length s)%nat.
Proof.
  intros Hw. unfold literal. destruct (strip_prefix word s) as [r'|] eqn:H; [|done].
  intros [= _ <-]. apply strip_prefix_length in H. destruct word; [done|]. simpl in H. lia.
Qed.

Lemma parse_value_length fuel :
  (∀ s v r, parse_value fuel s = Some (v, r) → (String.length r < String.length s)%nat)
  ∧ (∀ s vs r, parse_elements fuel s = Some (vs, r) → (String.length r < String.length s)%nat)
  ∧ (∀ s ms r, parse_members fuel s = Some (ms, r) → (String.length r < String.length s)%nat).
Proof.
  induction fuel as [|fuel (IHv & IHe & IHm)]; [done|]. split; [|split].
  - intros s v r. simpl.
    destruct (skip_ws s) as [|c t] eqn:Hs; [done|].
    pose proof (skip_ws_cons _ _ _ Hs) as Ht.
    assert (String.length (String c t) ≤ String.length s)%nat as Hct by (rewrite <- Hs; apply skip_ws_length).
    destruct (c =? "{")%char.
    { destruct (skip_ws t) as [|c' t'] eqn:Hs'; [done|].
      pose proof (skip_ws_cons _ _ _ Hs').
      destruct (c' =? "}")%char; [intros [= _ <-]; lia|].
      destruct (parse_members fuel t) as [[ms r']|] eqn:Hm; [|done].
      apply IHm in Hm. intros [= _ <-]. lia. }
    destruct (c =? "[")%char.
    { destruct (skip_ws t) as [|c' t'] eqn:Hs'; [done|].
      pose proof (skip_ws_cons _ _ _ Hs').
      destruct (c' =? "]")%char; [intros [= _ <-]; lia|].
      destruct (parse_elements fuel t) as [[vs r']|] eqn:He; [|done].
      apply IHe in He. intros [= _ <-]. lia. }
    destruct (c =? dquote)%char.
    { destruct (parse_string t) as [[str r']|] eqn:Hstr; [|done].
      apply parse_string_shorter in Hstr. intros [= _ <-]. lia. }
    destruct (c =? "t")%char; [intros H%literal_length; [lia|done]|].
    destruct (c =? "f")%char; [intros H%literal_length; [lia|done]|].
    destruct (c =? "n")%char; [intros H%literal_length; [lia|done]|].
    intros H%parse_number_length. lia.
  - intros s vs r. simpl.
    destruct (parse_value fuel s) as [[v r1]|] eqn:Hv; [|done].
    apply IHv in Hv. simpl.
    destruct (skip_ws r1) as [|c t] eqn:Hs; [done|].
    pose proof (skip_ws_cons _ _ _ Hs).
    destruct (c =? ",")%char.
    { destruct (parse_elements fuel t) as [[vs' r']|] eqn:He; [|done].
      apply IHe in He. intros [= _ <-]. lia. }
    destruct (c =? "]")%char; [|done]. intros [= _ <-]. lia.
  - intros s ms r. simpl.
    destruct (skip_ws s) as [|q t] eqn:Hs; [done|].
    pose proof (skip_ws_cons _ _ _ Hs).
    destruct (q =? dquote)%char; [|done].
    destruct (parse_string t) as [[k r1]|] eqn:Hk; [|done].
    apply parse_string_shorter in Hk. simpl.
    destruct (skip_ws r1) as [|c r2] eqn:Hs1; [done|].
    pose proof (skip_ws_cons _ _ _ Hs1).
    destruct (c =? ":")%char; [|done].
    destruct (parse_value fuel r2) as [[v r3]|] eqn:Hv; [|done].
    apply IHv in Hv. simpl.
    destruct (skip_ws r3) as [|c' r4] eqn:Hs3; [done|].
    pose proof (skip_ws_cons _ _ _ Hs3).
    destruct (c' =? ",")%char.
    { destruct (parse_members fuel r4) as [[ms' r5]|] eqn:Hm; [|done].
      apply IHm in Hm. intros [= _ <-]. lia. }
    destruct (c' =? "}")%char; [|done]. intros [= _ <-]. lia.
Qed.

(** Past [2 * length + 1] the fuel no longer matters: the parser never
    fails for lack of it. *)
Lemma parse_value_fuel f1 :
  (∀ f2 s, (2 * String.length s + 1 ≤ f1)%nat → (2 * String.length s + 1 ≤ f2)%nat →
           parse_value f1 s = parse_value f2 s)
  ∧ (∀ f2 s, (2 * String.length s + 2 ≤ f1)%nat → (2 * String.length s + 2 ≤ f2)%nat →
             parse_elements f1 s = parse_elements f2 s)
  ∧ (∀ f2 s, (2 * String.length s + 2 ≤ f1)%nat → (2 * String.length s + 2 ≤ f2)%nat →
             parse_members f1 s = parse_members f2 s).
Proof.
  induction f1 as [|f1 (IHv & IHe & IHm)]; [repeat split; intros; lia|].
  split; [|split]; intros [|f2] s H1 H2; try lia.
  - simpl.
    destruct (skip_ws s) as [|c t] eqn:Hs; [done|].
    pose proof (skip_ws_cons _ _ _ Hs) as Ht.
    destruct (c =? "{")%char.
    { destruct (skip_ws t) as [|c' t'] eqn:Hs'; [done|].
      destruct (c' =? "}")%char; [done|].
      by rewrite (IHm f2 t) by lia. }
    destruct (c =? "[")%char.
    { destruct (skip_ws t) as [|c' t'] eqn:Hs'; [done|].
      destruct (c' =? "]")%char; [done|].
      by rewrite (IHe f2 t) by lia. }
    done.
  - simpl. rewrite (IHv f2 s) by lia.
    destruct (parse_value f2 s) as [[v r1]|] eqn:Hv; [|done].
    apply (proj1 (parse_value_length f2)) in Hv. simpl.
    destruct (skip_ws r1) as [|c t] eqn:Hs; [done|].
    pose proof (skip_ws_cons _ _ _ Hs).
    destruct (c =? ",")%char; [|done].
    by rewrite (IHe f2 t) by lia.
  - simpl.
    destruct (skip_ws s) as [|q t] eqn:Hs; [done|].
    pose proof (skip_ws_cons _ _ _ Hs).
    destruct (q =? dquote)%char; [|done].
    destruct (parse_string t) as [[k r1]|] eqn:Hk; [|done].
    apply parse_string_shorter in Hk. simpl.
    destruct (skip_ws r1) as [|c r2] eqn:Hs1; [done|].
    pose proof (skip_ws_cons _ _ _ Hs1).
    destruct (c =? ":")%char; [|done].
    rewrite (IHv f2 r2) by lia.
    destruct (parse_value f2 r2) as [[v r3]|] eqn:Hv; [|done].
    apply (proj1 (parse_value_length f2)) in Hv. simpl.
    destruct (skip_ws r3) as [|c' r4] eqn:Hs3; [done|].
    pose proof (skip_ws_cons _ _ _ Hs3).
    destruct (c' =? ",")%char; [|done].
    by rewrite (IHm f2 r4) by lia.
Qed.

Lemma parse_fuel_irrelevant text fuel :
  (2 * String.length text + 1 ≤ fuel)%nat →
  parse text
  = '(v, r) ← parse_value fuel text;
    match skip_ws r with "" => Some v | _ => None end.
Proof.
  intros H. unfold parse.
  by rewrite (proj1 (parse_value_fuel (2 * String.length text + 1)) fuel text) by lia.
Qed.

(** ** The typed store and its object *)


Lemma toJS_integral p : integral (toJS p) = true.
Proof.
  destruct p as [total m]. simpl. rewrite andb_true_r.
  induction (map_to_list m) as [|[k e] l IH]; [done|].
  simpl. rewrite IH. simpl. by destruct e as [? [?|]].
Qed.

Lemma entry_fromJS_toJS e : entry_fromJS (entry_toJS e) = Some e.
Proof. by destruct e as [m [t|]]. Qed.

Lemma fromJS_toJS p : fromJS (toJS p) = Some p.
Proof.
  destruct p as [total m]. unfold fromJS, toJS. simpl.
  rewrite (mapM_fmap_Some _ (fun '(k, e) => (k, entry_toJS e))).
  - simpl. do 2 f_equal. rewrite <- (list_to_map_to_list m) at 2.
    apply list_to_map_proper.
    + rewrite reverse_Permutation. apply NoDup_fst_map_to_list.
    + apply reverse_Permutation.
  - intros [k e]. by rewrite entry_fromJS_toJS.
Qed.

Lemma load_persist p localStorage :
  loadProgressFromStorage (persistProgress p (Some localStorage)) = toJS p.
Proof.
  unfold loadProgressFromStorage, persistProgress. rewrite lookup_insert_eq.
  pose proof (stringify_nonempty (toJS p) (toJS_integral p)) as Hne.
  destruct (stringify (toJS p)) as [|c s] eqn:Hs; [done|].
  rewrite <- Hs, parse_stringify by apply toJS_integral. done.
Qed.

(** ** The weighted draw *)

Lemma ensureMinimumMisses_floor m : 1 ≤ ensureMinimumMisses m.
Proof. unfold ensureMinimumMisses. lia. Qed.

Lemma totalWeight_acc hands acc :
  fold_left (fun sum hand => sum + ensureMinimumMisses (misses hand)) hands acc
  = acc + totalWeight hands.
Proof.
  unfold totalWeight. revert acc.
  induction hands as [|h hands IH]; intros acc; simpl; [lia|].
  rewrite (IH (acc + _)), (IH (0 + _)). lia.
Qed.

Lemma totalWeight_cons h hands :
  totalWeight (h :: hands) = ensureMinimumMisses (misses h) + totalWeight hands.
Proof. unfold totalWeight at 1. simpl. apply totalWeight_acc. Qed.

Lemma totalWeight_app l1 l2 : totalWeight (l1 ++ l2) = totalWeight l1 + totalWeight l2.
Proof.
  induction l1 as [|h l1 IH]; [done|].
  rewrite <- app_comm_cons, !totalWeight_cons, IH. lia.
Qed.

Lemma totalWeight_length hands : Z.of_nat (length hands) ≤ totalWeight hands.
Proof.
  induction hands as [|h hands IH]; [done|].
  rewrite totalWeight_cons. pose proof (ensureMinimumMisses_floor (misses h)).
  simpl length. lia.
Qed.

Lemma walk_elem threshold hands h : walk threshold hands = Some h → h ∈ hands.
Proof.
  revert threshold. induction hands as [|x hands IH]; intros threshold; simpl; [done|].
  destruct (Qle_bool _ 0).
  - intros [= ->]. apply list_elem_of_here.
  - intros H. apply list_elem_of_further. by eapply IH.
Qed.

(** The loop stops at index [i] exactly when the threshold lies above the
    weight before [i] and not above the weight up to and including [i]. *)
Lemma walk_select hands : ∀ i h threshold,
  hands !! i = Some h →
  (inject_Z (totalWeight (take i hands)) < threshold)%Q →
  (threshold <= inject_Z (totalWeight (take (S i) hands)))%Q →
  walk threshold hands = Some h.
Proof.
  induction hands as [|x hands IH]; intros i h threshold Hi Hlo Hhi; [done|].
  simpl walk. destruct i as [|i].
  - injection Hi as ->. simpl take in Hhi. rewrite totalWeight_cons in Hhi.
    change (totalWeight []) with 0 in Hhi. rewrite Z.add_0_r in Hhi.
    destruct (Qle_bool _ 0) eqn:Hle; [done|].
    assert (¬ (threshold - inject_Z (ensureMinimumMisses (misses h)) <= 0)%Q) as Hn.
    { rewrite <- Qle_bool_iff. congruence. }
    exfalso. apply Hn. lra.
  - simpl in Hi. simpl take in Hlo, Hhi. rewrite totalWeight_cons in Hlo, Hhi.
    rewrite inject_Z_plus in Hlo, Hhi.
    pose proof (totalWeight_length (take i hands)) as Hnn.
    assert (0 <= inject_Z (totalWeight (take i hands)))%Q as Hnn'.
    { change 0%Q with (inject_Z 0). rewrite <- Zle_Qle. lia. }
    destruct (Qle_bool _ 0) eqn:Hle.
    + apply Qle_bool_iff in Hle. lra.
    + apply (IH i); [done| lra | lra].
Qed.

Lemma pickWeightedHand_empty random : pickWeightedHand random [] = None.
Proof. done. Qed.

Lemma pickWeightedHand_Some random hands :
  hands ≠ [] → ∃ h, pickWeightedHand random hands = Some h ∧ h ∈ hands.
Proof.
  intros Hne. unfold pickWeightedHand.
  destruct hands as [|x hands]; [done|]. simpl Nat.eqb. cbv iota.
  destruct (walk _ (x :: hands)) as [h|] eqn:Hw.
  - exists h. split; [done|]. by eapply walk_elem.
  - destruct (lookup_lt_is_Some_2 (x :: hands) (length (x :: hands) - 1)) as [h Hh].
    { simpl. lia. }
    exists h. split; [done|]. by eapply list_elem_of_lookup_2.
Qed.

Lemma pickWeightedHand_elem random hands h :
  pickWeightedHand random hands = Some h → h ∈ hands.
Proof.
  destruct hands as [|x hands]; [done|].
  destruct (pickWeightedHand_Some random (x :: hands)) as (h' & -> & Hin); [done|].
  by intros [= <-].
Qed.

(** C2: on the empty list [pickWeightedHand] returns none; on a non-empty
    list it returns an item of the list, whatever the draw (any rational,
    inside [0,1) or not) and whatever the weights of the items. *)
Theorem pickWeightedHand_member (random : Q) (hands : list HandRecord) :
  (hands = [] → pickWeightedHand random hands = None)
  ∧ (hands ≠ [] → ∃ h, pickWeightedHand random hands = Some h ∧ h ∈ hands).
Proof.
  split.
  - intros ->. apply pickWeightedHand_empty.
  - apply pickWeightedHand_Some.
Qed.

Lemma pickWeightedHand_member_witness :
  [handAA] ≠ [] ∧ ∃ h, pickWeightedHand (1 # 2) [handAA] = Some h ∧ h ∈ [handAA].
Proof.
  assert ([handAA] ≠ []) as Hne by discriminate.
  split; [exact Hne|].
  exact (proj2 (pickWeightedHand_member (1 # 2) [handAA]) Hne).
Defined.

Lemma totalWeight_split hands i h :
  hands !! i = Some h →
  totalWeight (take (S i) hands)
  = totalWeight (take i hands) + ensureMinimumMisses (misses h)
  ∧ totalWeight hands
    = totalWeight (take i hands) + ensureMinimumMisses (misses h)
      + totalWeight (drop (S i) hands).
Proof.
  intros Hi. split.
  - rewrite (take_S_r _ _ _ Hi), totalWeight_app, totalWeight_cons.
    change (totalWeight []) with 0. lia.
  - rewrite <- (take_drop_middle _ _ _ Hi) at 1.
    rewrite totalWeight_app, totalWeight_cons. lia.
Qed.

Lemma pickWeightedHand_select random hands i h :
  hands !! i = Some h →
  (inject_Z (totalWeight (take i hands)) < random * inject_Z (totalWeight hands))%Q →
  (random * inject_Z (totalWeight hands) <= inject_Z (totalWeight (take (S i) hands)))%Q →
  pickWeightedHand random hands = Some h.
Proof.
  intros Hi Hlo Hhi. unfold pickWeightedHand.
  destruct hands as [|x hands]; [done|]. simpl Nat.eqb. cbv iota.
  by rewrite (walk_select _ i h _ Hi Hlo Hhi).
Qed.

(** C7: an item of the list whose weight is 0 or negative has the effective
    weight [ensureMinimumMisses (misses h) = 1]; it adds exactly 1 to the
    total weight; the thresholds [random * total] that select it are those
    of the interval from [before] (excluded) to [before + 1] (included), of
    length 1 within the total; and some draw of [0,1) selects it.  (A table
    weight of 0 or less never reaches the list: it is raised to 1 when the
    row is normalised, unless a stored record replaces it.) *)
Theorem weight_floor (hands : list HandRecord) (i : nat) (h : HandRecord) :
  hands !! i = Some h → misses h ≤ 0 →
  let before := totalWeight (take i hands) in
  let total := totalWeight hands in
  ensureMinimumMisses (misses h) = 1
  ∧ total = before + 1 + totalWeight (drop (S i) hands)
  ∧ 0 ≤ before ∧ before + 1 ≤ total
  ∧ (∀ random : Q,
       (inject_Z before < random * inject_Z total)%Q →
       (random * inject_Z total <= inject_Z (before + 1))%Q →
       pickWeightedHand random hands = Some h)
  ∧ (∃ random : Q,
       (0 <= random)%Q ∧ (random < 1)%Q ∧ pickWeightedHand random hands = Some h)
  ∧ (∀ stored row,
       row_misses row ≤ 0 → perHand stored !! row_Hand row = None →
       misses (normalizeHand stored row) = 1).
Proof.
  intros Hi Hm before total.
  assert (ensureMinimumMisses (misses h) = 1) as Hfloor.
  { unfold ensureMinimumMisses. lia. }
  destruct (totalWeight_split hands i h Hi) as [Htake Htotal].
  rewrite Hfloor in Htake, Htotal.
  pose proof (totalWeight_length (take i hands)) as Hbefore.
  pose proof (totalWeight_length (drop (S i) hands)) as Hafter.
  assert (∀ random : Q,
             (inject_Z before < random * inject_Z total)%Q →
             (random * inject_Z total <= inject_Z (before + 1))%Q →
             pickWeightedHand random hands = Some h) as Hsel.
  { intros random Hlo Hhi. apply (pickWeightedHand_select random hands i h Hi Hlo).
    by rewrite Htake. }
  assert (∀ stored row,
             row_misses row ≤ 0 → perHand stored !! row_Hand row = None →
             misses (normalizeHand stored row) = 1) as Hraw.
  { intros stored row Hrow Hnone. unfold normalizeHand. rewrite Hnone. simpl.
    unfold ensureMinimumMisses. lia. }
  repeat split; try done; try (subst before total; lia).
  exists (Qmake (2 * before + 1) (Z.to_pos (2 * total))).
  assert (0 < 2 * total) as Hpos by (subst before total; lia).
  assert (0 ≤ before) as Hb by (subst before; lia).
  assert (before + 1 ≤ total) as Hbt by (subst before total; lia).
  clearbody before total.
  repeat split.
  - unfold Qle. simpl. lia.
  - unfold Qlt. simpl. rewrite Z2Pos.id by done. lia.
  - apply Hsel.
    + unfold Qlt, Qmult, inject_Z. simpl. rewrite Pos.mul_1_r, Z2Pos.id by done. nia.
    + unfold Qle, Qmult, inject_Z. simpl. rewrite Pos.mul_1_r, Z2Pos.id by done. nia.
Qed.

Lemma weight_floor_witness :
  [handAA; handLow] !! 1%nat = Some handLow ∧ misses handLow ≤ 0
  ∧ ensureMinimumMisses (misses handLow) = 1
  ∧ ∃ random : Q,
      (0 <= random)%Q ∧ (random < 1)%Q
      ∧ pickWeightedHand random [handAA; handLow] = Some handLow.
Proof.
  assert (misses handLow ≤ 0) as Hlow by (simpl; lia).
  split; [reflexivity|]. split; [exact Hlow|].
  pose proof (weight_floor [handAA; handLow] 1 handLow eq_refl Hlow) as H.
  split; [exact (proj1 H)|].
  exact (proj1 (proj2 (proj2 (proj2 (proj2 (proj2 H)))))).
Defined.

(** ** The answer handler *)

Lemma handleAnswer_guard value timestamp st :
  currentHand st = None ∨ answerStatus st ≠ idle →
  handleAnswer value timestamp st = st.
Proof.
  unfold handleAnswer. intros [-> | Hst]; [done|].
  destruct (currentHand st); [|done]. by destruct (answerStatus st).
Qed.

Lemma handleAnswer_right value timestamp st h :
  currentHand st = Some h → answerStatus st = idle → value = Players h →
  handleAnswer value timestamp st
  = {| hands := hands st; currentHand := currentHand st;
       answerStatus := correct; selectedValue := Some value;
       progress := progress st; window := window st |}.
Proof.
  intros Hcur Hst ->. unfold handleAnswer. by rewrite Hcur, Hst, Z.eqb_refl.
Qed.

Lemma handleAnswer_wrong value timestamp st h :
  currentHand st = Some h → answerStatus st = idle → value ≠ Players h →
  handleAnswer value timestamp st
  = {| hands :=
         map (fun hand =>
                if String.eqb (Hand hand) (Hand h)
                then withMiss hand (misses h + 1) timestamp
                else hand)
             (hands st);
       currentHand := Some (withMiss h (misses h + 1) timestamp);
       answerStatus := incorrect; selectedValue := Some value;
       progress := recordMiss (Hand h) (misses h + 1) timestamp (progress st);
       window :=
         persistProgress (recordMiss (Hand h) (misses h + 1) timestamp (progress st))
                         (window st) |}.
Proof.
  intros Hcur Hst Hne. unfold handleAnswer. rewrite Hcur, Hst.
  apply Z.eqb_neq in Hne. by rewrite Hne.
Qed.

Lemma handleAnswer_coherent value timestamp st :
  coherent st → coherent (handleAnswer value timestamp st).
Proof.
  intros Hco. pose proof Hco as [Hrec Hcur].
  destruct (currentHand st) as [h|] eqn:Hc;
    [|by rewrite handleAnswer_guard by auto].
  destruct (answerStatus st) eqn:Hs;
    try (by rewrite handleAnswer_guard by (right; congruence)).
  destruct (decide (value = Players h)) as [Heq|Hne].
  { rewrite (handleAnswer_right _ _ _ h) by done. split; simpl; [done|].
    intros h'. rewrite Hc. by apply Hcur. }
  rewrite (handleAnswer_wrong _ _ _ h) by done. split; simpl.
  - intros h' e [x [-> Hx]]%list_elem_of_fmap.
    destruct (String.eqb_spec (Hand x) (Hand h)) as [Hk|Hk].
    + simpl. rewrite Hk, lookup_insert_eq. by intros [= <-].
    + rewrite lookup_insert_ne by done. by apply Hrec.
  - intros h' [= <-]. apply list_elem_of_fmap. exists h.
    rewrite String.eqb_refl. split; [done|]. by apply Hcur.
Qed.

Lemma handleNext_coherent random st : coherent st → coherent (handleNext random st).
Proof.
  intros [Hrec Hcur]. unfold handleNext.
  destruct (length (hands st) =? 0)%nat; [done|]. split; simpl; [done|].
  intros h. apply pickWeightedHand_elem.
Qed.

Lemma bootstrap_coherent rows random window st :
  bootstrap rows random window = Some st → coherent st.
Proof.
  unfold bootstrap. destruct (fromJS _) as [stored|]; [|done].
  intros [= <-]. split; simpl.
  - intros h e [row [-> _]]%list_elem_of_fmap. simpl. by intros ->.
  - intros h. apply pickWeightedHand_elem.
Qed.

Lemma reachable_coherent st : reachable st → coherent st.
Proof.
  induction 1 as [rows random window st Hboot | value timestamp st _ IH | random st _ IH].
  - by eapply bootstrap_coherent.
  - by apply handleAnswer_coherent.
  - by apply handleNext_coherent.
Qed.

(** ** The claims *)

(** C1, as stated, fails: a first miss does not create the record with
    count 1.  On the one-row table (weight 1, nothing stored) a wrong answer
    stores the count 2. *)
Lemma first_miss_count_counterexample :
  ¬ (∀ (st : AppState) (h : HandRecord) (value : Z) (timestamp : string),
        currentHand st = Some h → answerStatus st = idle → value ≠ Players h →
        perHand (progress st) !! Hand h = None →
        entry_misses <$> perHand (progress (handleAnswer value timestamp st)) !! Hand h
        = Some 1).
Proof.
  intros H.
  specialize (H stateAA handAA 3 "2026-01-01T00:00:00.000Z" eq_refl eq_refl).
  assert (3 ≠ Players handAA) as Hne by (simpl; lia).
  specialize (H Hne eq_refl). vm_compute in H. discriminate H.
Qed.

(** C1, amended: a wrong answer to the current item [h] while the status is
    [idle] yields a store whose total is the old total plus exactly 1 and
    whose record for [h]'s key holds the item's in-memory count plus 1 and
    the given timestamp, whether or not there was a record, the other
    records being untouched.  When there was a record, the new count is the
    stored count plus 1 exactly when the item's in-memory count is the
    stored count, as it is on a coherent state. *)
Theorem recordMiss_on_wrong_answer
    (st : AppState) (h : HandRecord) (value : Z) (timestamp : string) :
  currentHand st = Some h → answerStatus st = idle → value ≠ Players h →
  let st' := handleAnswer value timestamp st in
  progress st' = recordMiss (Hand h) (misses h + 1) timestamp (progress st)
  ∧ totalMisses (progress st') = totalMisses (progress st) + 1
  ∧ perHand (progress st') !! Hand h
    = Some {| entry_misses := misses h + 1; entry_lastMissedAt := Some timestamp |}
  ∧ (∀ k, k ≠ Hand h → perHand (progress st') !! k = perHand (progress st) !! k)
  ∧ (∀ e, perHand (progress st) !! Hand h = Some e →
       entry_misses <$> perHand (progress st') !! Hand h = Some (entry_misses e + 1)
       ↔ misses h = entry_misses e)
  ∧ (coherent st → ∀ e, perHand (progress st) !! Hand h = Some e →
       entry_misses <$> perHand (progress st') !! Hand h = Some (entry_misses e + 1)).
Proof.
  intros Hcur Hst Hne st'. subst st'.
  rewrite (handleAnswer_wrong _ _ _ h Hcur Hst Hne). simpl.
  split; [reflexivity|]. split; [reflexivity|].
  split; [apply lookup_insert_eq|].
  split; [intros k Hk; by apply lookup_insert_ne|].
  split.
  - intros e He. rewrite lookup_insert_eq. simpl. split.
    + intros [= Heq]. lia.
    + by intros ->.
  - intros [Hrec Hin] e He. rewrite lookup_insert_eq. simpl.
    by rewrite (Hrec h e (Hin h Hcur) He).
Qed.

Lemma recordMiss_on_wrong_answer_witness :
  currentHand stateAA = Some handAA ∧ answerStatus stateAA = idle ∧ 3 ≠ Players handAA
  ∧ totalMisses (progress (handleAnswer 3 "2026-01-01T00:00:00.000Z" stateAA)) = 1.
Proof.
  assert (3 ≠ Players handAA) as Hne by (simpl; lia).
  split; [reflexivity|]. split; [reflexivity|]. split; [exact Hne|].
  exact (proj1 (proj2 (recordMiss_on_wrong_answer stateAA handAA 3
                         "2026-01-01T00:00:00.000Z" eq_refl eq_refl Hne))).
Defined.

(** The scenario's row of strings is the row [rowAA], for any [Number] that
    reads the numerals 2 and 1 and any [trim] that leaves trimmed text alone. *)
Lemma parseTable_rawAA (Number : string → option Z) (trim : string → string) :
  Number "2" = Some 2 → Number "1" = Some 1 → trim "AA" = "AA" → trim "紺" = "紺" →
  parseTable Number trim [rawAA] = [rowAA].
Proof.
  intros H2 H1 Hhand Hcolor. unfold parseTable, parseRow, parseNumber. simpl.
  by rewrite H2, H1, Hhand, Hcolor.
Qed.

Lemma bootstrap_rowAA random localStorage :
  localStorage !! LOCAL_STORAGE_KEY = None →
  bootstrap [rowAA] random (Some localStorage)
  = Some {| hands := [handAA]; currentHand := Some handAA; answerStatus := idle;
            selectedValue := None; progress := DEFAULT_PROGRESS;
            window := Some localStorage |}.
Proof.
  intros Hls. unfold bootstrap, loadProgressFromStorage. rewrite Hls.
  rewrite fromJS_toJS. simpl.
  destruct (pickWeightedHand_Some random [handAA]) as (h & Hpick & Hin); [done|].
  apply list_elem_of_singleton in Hin as ->.
  change (normalizeHand DEFAULT_PROGRESS rowAA) with handAA. by rewrite Hpick.
Qed.

(** C3: on the one-row table [AA] (2 players, weight 1) with nothing stored,
    whatever the draw, the answer 3 sets the status to [incorrect]; the
    record stored for [AA], in memory and as read back from the storage, has
    count 2 and the clock's non-empty timestamp, and the total is 1. *)
Theorem scenario_wrong_answer
    (random : Q) (timestamp : string) (localStorage : gmap string string) :
  localStorage !! LOCAL_STORAGE_KEY = None → timestamp ≠ "" →
  ∃ st0, bootstrap [rowAA] random (Some localStorage) = Some st0
    ∧ currentHand st0 = Some handAA
    ∧ let st1 := handleAnswer 3 timestamp st0 in
      answerStatus st1 = incorrect
      ∧ (∃ e t, perHand (progress st1) !! "AA" = Some e
                ∧ entry_misses e = 2 ∧ entry_lastMissedAt e = Some t ∧ t ≠ "")
      ∧ totalMisses (progress st1) = 1
      ∧ fromJS (loadProgressFromStorage (window st1)) = Some (progress st1).
Proof.
  intros Hls Hts. eexists. split; [by apply bootstrap_rowAA|]. split; [done|].
  cbv zeta. rewrite (handleAnswer_wrong _ _ _ handAA) by done.
  cbn [answerStatus progress window currentHand].
  split; [done|]. split; [|split; [done|]].
  - eexists _, timestamp. cbn. by rewrite lookup_insert_eq.
  - by rewrite load_persist, fromJS_toJS.
Qed.

Lemma scenario_wrong_answer_witness :
  (∅ : gmap string string) !! LOCAL_STORAGE_KEY = None
  ∧ "2026-01-01T00:00:00.000Z" ≠ ""
  ∧ ∃ st0, bootstrap [rowAA] (1 # 2) (Some ∅) = Some st0
      ∧ currentHand st0 = Some handAA
      ∧ let st1 := handleAnswer 3 "2026-01-01T00:00:00.000Z" st0 in
        answerStatus st1 = incorrect
        ∧ (∃ e t, perHand (progress st1) !! "AA" = Some e
                  ∧ entry_misses e = 2 ∧ entry_lastMissedAt e = Some t ∧ t ≠ "")
        ∧ totalMisses (progress st1) = 1
        ∧ fromJS (loadProgressFromStorage (window st1)) = Some (progress st1).
Proof.
  assert ("2026-01-01T00:00:00.000Z" ≠ "") as Hts by discriminate.
  split; [reflexivity|]. split; [exact Hts|].
  exact (scenario_wrong_answer (1 # 2) "2026-01-01T00:00:00.000Z" ∅ eq_refl Hts).
Defined.

(** The handler over a storage that may refuse the write, against the
    handler whose write succeeds. *)
Lemma handleAnswerWithin_Some quota value timestamp st st' :
  handleAnswerWithin quota value timestamp st = Some st' →
  st' = handleAnswer value timestamp st.
Proof.
  unfold handleAnswerWithin, handleAnswer, updateProgress, persistProgressWithin,
    persistProgress, setItem.
  cbv zeta.
  destruct (currentHand st) as [h|]; [|by intros [= <-]].
  destruct (answerStatus st); try by intros [= <-].
  destruct (value =? Players h); [by intros [= <-]|].
  destruct (window st) as [localStorage|]; [|intros [= <-]; reflexivity].
  destruct (_ <=? _)%nat; [intros [= <-]; reflexivity|discriminate].
Qed.

Lemma handleAnswerWithin_None quota value timestamp st :
  handleAnswerWithin quota value timestamp st = None ↔
  ∃ h localStorage,
    currentHand st = Some h ∧ answerStatus st = idle ∧ value ≠ Players h
    ∧ window st = Some localStorage
    ∧ (quota < String.length
                 (JSON.stringify
                    (toJS (recordMiss (Hand h) (misses h + 1) timestamp (progress st)))))%nat.
Proof.
  unfold handleAnswerWithin, persistProgressWithin, setItem. split.
  - destruct (currentHand st) as [h|]; [|discriminate].
    destruct (answerStatus st); try discriminate.
    destruct (Z.eqb_spec value (Players h)) as [|Hne]; [discriminate|]. cbv zeta.
    destruct (window st) as [localStorage|]; [|discriminate].
    destruct (_ <=? _)%nat eqn:Hle; [discriminate|].
    apply Nat.leb_gt in Hle. intros _. by exists h, localStorage.
  - intros (h & localStorage & -> & -> & Hne & -> & Hlt).
    apply Z.eqb_neq in Hne. rewrite Hne. cbv zeta.
    apply Nat.leb_gt in Hlt. by rewrite Hlt.
Qed.

(** C5, as stated, fails: there is an outcome that is neither.  On a storage
    that takes no value, a wrong answer to the one item of [stateAA] ends in
    the exception of [setItem]: the handler returns neither the state it was
    given nor the state of the whole update. *)
Lemma no_partial_failure_counterexample :
  ¬ (∀ (quota : nat) (value : Z) (timestamp : string) (st : AppState),
        handleAnswerWithin quota value timestamp st = Some st
        ∨ handleAnswerWithin quota value timestamp st
          = Some (handleAnswer value timestamp st)).
Proof.
  intros H.
  destruct (H 0%nat 3 "2026-01-01T00:00:00.000Z" stateAA) as [H'|H'];
    vm_compute in H'; discriminate H'.
Qed.

(** C5, amended: with no current item, or with a status other than [idle],
    submitting an answer returns the state it was given, storage included,
    and throws nothing.  Whenever the handler returns, it has either done
    nothing or performed the whole update of its branch (status and
    selection; and after a wrong answer also the item list, the current
    item, the store and the persisted copy).  It fails to return exactly
    when the answer is wrong, there is a storage, and the storage refuses
    the text of the new store. *)
Theorem handleAnswerWithin_noop_or_complete
    (quota : nat) (value : Z) (timestamp : string) (st : AppState) :
  (currentHand st = None ∨ answerStatus st ≠ idle →
   handleAnswerWithin quota value timestamp st = Some st)
  ∧ (∀ st', handleAnswerWithin quota value timestamp st = Some st' →
       st' = st
       ∨ ∃ h, currentHand st = Some h ∧ answerStatus st = idle
           ∧ selectedValue st' = Some value
           ∧ ((value = Players h ∧ answerStatus st' = correct
               ∧ hands st' = hands st ∧ currentHand st' = currentHand st
               ∧ progress st' = progress st ∧ window st' = window st)
              ∨ (value ≠ Players h ∧ answerStatus st' = incorrect
                 ∧ hands st'
                   = map (fun hand =>
                            if String.eqb (Hand hand) (Hand h)
                            then withMiss hand (misses h + 1) timestamp
                            else hand) (hands st)
                 ∧ currentHand st' = Some (withMiss h (misses h + 1) timestamp)
                 ∧ progress st'
                   = recordMiss (Hand h) (misses h + 1) timestamp (progress st)
                 ∧ window st' = persistProgress (progress st') (window st))))
  ∧ (handleAnswerWithin quota value timestamp st = None ↔
     ∃ h localStorage,
       currentHand st = Some h ∧ answerStatus st = idle ∧ value ≠ Players h
       ∧ window st = Some localStorage
       ∧ (quota < String.length
                    (JSON.stringify
                       (toJS (recordMiss (Hand h) (misses h + 1) timestamp
                                (progress st)))))%nat).
Proof.
  split.
  { unfold handleAnswerWithin. intros [-> | Hst]; [done|].
    destruct (currentHand st); [|done]. by destruct (answerStatus st). }
  split; [|apply handleAnswerWithin_None].
  intros st' Hret. apply handleAnswerWithin_Some in Hret. subst st'.
  destruct (currentHand st) as [h|] eqn:Hc;
    [|left; apply handleAnswer_guard; auto].
  destruct (answerStatus st) eqn:Hs;
    try (left; apply handleAnswer_guard; right; congruence).
  right. exists h. split; [done|]. split; [done|].
  destruct (decide (value = Players h)) as [Heq|Hne].
  - rewrite (handleAnswer_right _ _ _ h Hc Hs Heq). simpl. split; [done|].
    left. by rewrite Hc.
  - rewrite (handleAnswer_wrong _ _ _ h Hc Hs Hne). simpl. split; [done|].
    by right.
Qed.

Lemma handleAnswerWithin_noop_or_complete_witness :
  let st := {| hands := [handAA]; currentHand := Some handAA;
               answerStatus := incorrect; selectedValue := Some 3;
               progress := DEFAULT_PROGRESS; window := Some ∅ |} in
  (currentHand st = None ∨ answerStatus st ≠ idle)
  ∧ handleAnswerWithin 0 2 "2026-01-01T00:00:00.000Z" st = Some st.
Proof.
  intros st.
  assert (currentHand st = None ∨ answerStatus st ≠ idle) as Hguard
    by (right; discriminate).
  split; [exact Hguard|].
  exact (proj1 (handleAnswerWithin_noop_or_complete 0 2 "2026-01-01T00:00:00.000Z" st)
           Hguard).
Defined.

(** C6: an answer equal to the current item's [Players] changes the status
    to [correct] and the recorded selection, and nothing else: the items and
    their weights, the current item, the store with its total, and the
    storage are the ones the handler was given. *)
Theorem handleAnswer_correct_frame
    (st : AppState) (h : HandRecord) (value : Z) (timestamp : string) :
  currentHand st = Some h → answerStatus st = idle → value = Players h →
  let st' := handleAnswer value timestamp st in
  answerStatus st' = correct ∧ selectedValue st' = Some value
  ∧ hands st' = hands st ∧ currentHand st' = Some h
  ∧ progress st' = progress st ∧ window st' = window st.
Proof.
  intros Hcur Hst Heq st'. subst st'.
  rewrite (handleAnswer_right _ _ _ h Hcur Hst Heq). simpl. by rewrite Hcur.
Qed.

Lemma handleAnswer_correct_frame_witness :
  currentHand stateAA = Some handAA ∧ answerStatus stateAA = idle ∧ 2 = Players handAA
  ∧ let st' := handleAnswer 2 "2026-01-01T00:00:00.000Z" stateAA in
    answerStatus st' = correct ∧ selectedValue st' = Some 2
    ∧ hands st' = hands stateAA ∧ currentHand st' = Some handAA
    ∧ progress st' = progress stateAA ∧ window st' = window stateAA.
Proof.
  split; [reflexivity|]. split; [reflexivity|]. split; [reflexivity|].
  exact (handleAnswer_correct_frame stateAA handAA 2 "2026-01-01T00:00:00.000Z"
           eq_refl eq_refl eq_refl).
Defined.

(** C9: after a wrong answer to the current item [h], the store's record
    for [h]'s key, the record read back from the storage, every item of the
    list with that key, and the current item all carry the count
    [misses h + 1] and the same timestamp; the other items are untouched. *)
Theorem miss_is_consistent
    (st : AppState) (h : HandRecord) (value : Z) (timestamp : string) :
  currentHand st = Some h → answerStatus st = idle → value ≠ Players h →
  let st' := handleAnswer value timestamp st in
  let entry := {| entry_misses := misses h + 1; entry_lastMissedAt := Some timestamp |} in
  perHand (progress st') !! Hand h = Some entry
  ∧ (∀ localStorage, window st = Some localStorage →
       ∃ stored, fromJS (loadProgressFromStorage (window st')) = Some stored
                 ∧ perHand stored !! Hand h = Some entry)
  ∧ (∃ current, currentHand st' = Some current ∧ Hand current = Hand h
                ∧ misses current = misses h + 1
                ∧ lastMissedAt current = Some timestamp)
  ∧ (∀ i x, hands st !! i = Some x → Hand x = Hand h →
       ∃ x', hands st' !! i = Some x' ∧ Hand x' = Hand h
             ∧ misses x' = misses h + 1 ∧ lastMissedAt x' = Some timestamp)
  ∧ (∀ i x, hands st !! i = Some x → Hand x ≠ Hand h → hands st' !! i = Some x).
Proof.
  intros Hcur Hst Hne. cbv zeta.
  rewrite (handleAnswer_wrong _ _ _ h Hcur Hst Hne).
  cbn [hands currentHand progress window].
  split; [apply lookup_insert_eq|]. split; [|split; [|split]].
  - intros localStorage ->. eexists.
    rewrite load_persist, fromJS_toJS. split; [done|]. apply lookup_insert_eq.
  - by eexists.
  - intros i x Hi Hk. exists (withMiss x (misses h + 1) timestamp).
    rewrite list_lookup_fmap, Hi. simpl.
    pose proof (proj2 (String.eqb_eq _ _) Hk) as Hb. by rewrite Hb.
  - intros i x Hi Hk. rewrite list_lookup_fmap, Hi. simpl.
    apply String.eqb_neq in Hk. by rewrite Hk.
Qed.

Lemma miss_is_consistent_witness :
  currentHand stateAA = Some handAA ∧ answerStatus stateAA = idle ∧ 3 ≠ Players handAA
  ∧ perHand (progress (handleAnswer 3 "2026-01-01T00:00:00.000Z" stateAA)) !! "AA"
    = Some {| entry_misses := 2;
              entry_lastMissedAt := Some "2026-01-01T00:00:00.000Z" |}.
Proof.
  assert (3 ≠ Players handAA) as Hne by (simpl; lia).
  split; [reflexivity|]. split; [reflexivity|]. split; [exact Hne|].
  exact (proj1 (miss_is_consistent stateAA handAA 3 "2026-01-01T00:00:00.000Z"
                  eq_refl eq_refl Hne)).
Defined.

Lemma loadProgressFromStorage_default (window : option (gmap string string)) :
  match window with
  | None => True
  | Some localStorage =>
      match localStorage !! LOCAL_STORAGE_KEY with
      | None => True
      | Some raw => JSON.parse raw = None
      end
  end →
  loadProgressFromStorage window = toJS DEFAULT_PROGRESS.
Proof.
  intros Hbad. unfold loadProgressFromStorage.
  destruct window as [localStorage|]; [|done].
  destruct (localStorage !! LOCAL_STORAGE_KEY) as [raw|]; [|done].
  destruct raw as [|c raw]; [done|]. by rewrite Hbad.
Qed.

(** After a load that fell back to the default, the items carry the table's
    values: weight floored at 1, no timestamp (end-to-end scenario 3). *)
Lemma bootstrap_after_failed_load rows random (window : option (gmap string string)) :
  match window with
  | None => True
  | Some localStorage =>
      match localStorage !! LOCAL_STORAGE_KEY with
      | None => True
      | Some raw => JSON.parse raw = None
      end
  end →
  ∃ st, bootstrap rows random window = Some st
    ∧ progress st = DEFAULT_PROGRESS
    ∧ hands st
      = map (fun row =>
               {| Hand := row_Hand row; Color := row_Color row;
                  Players := row_Players row;
                  misses := ensureMinimumMisses (row_misses row);
                  lastMissedAt := None |}) rows.
Proof.
  intros Hbad. unfold bootstrap.
  rewrite (loadProgressFromStorage_default window Hbad), fromJS_toJS.
  eexists. split; [reflexivity|]. split; [done|]. simpl.
  apply map_ext. intros row. unfold normalizeHand.
  change (perHand DEFAULT_PROGRESS) with (∅ : gmap string PerHandEntry).
  by rewrite lookup_empty.
Qed.

(** C4: whenever there is no window, no stored item, or a stored text that
    [JSON.parse] rejects, loading returns the default store (total 0, no
    records); the text [not json] is such a text. *)
Theorem load_fails_soft (window : option (gmap string string)) :
  match window with
  | None => True
  | Some localStorage =>
      match localStorage !! LOCAL_STORAGE_KEY with
      | None => True
      | Some raw => JSON.parse raw = None
      end
  end →
  loadProgressFromStorage window = toJS DEFAULT_PROGRESS
  ∧ fromJS (loadProgressFromStorage window) = Some DEFAULT_PROGRESS
  ∧ JSON.parse "not json" = None
  ∧ loadProgressFromStorage (Some {[LOCAL_STORAGE_KEY := "not json"]})
    = toJS DEFAULT_PROGRESS.
Proof.
  intros Hbad. rewrite (loadProgressFromStorage_default window Hbad).
  split; [done|]. split; [apply fromJS_toJS|]. split; reflexivity.
Qed.

Lemma load_fails_soft_witness :
  JSON.parse "not json" = None
  ∧ fromJS (loadProgressFromStorage (Some {[LOCAL_STORAGE_KEY := "not json"]}))
    = Some DEFAULT_PROGRESS.
Proof.
  assert (JSON.parse "not json" = None) as Hbad by reflexivity.
  split; [exact Hbad|].
  exact (proj1 (proj2 (load_fails_soft (Some {[LOCAL_STORAGE_KEY := "not json"]}) Hbad))).
Defined.

(** C8: for every store, the text [persistProgress] writes is read back by
    [JSON.parse] as the store's object, and [loadProgressFromStorage] on the
    storage it was written to returns that object, whose typed reading is
    the store itself. *)
Theorem persist_load_roundtrip (p : ProgressStore) (localStorage : gmap string string) :
  JSON.parse (JSON.stringify (toJS p)) = Some (toJS p)
  ∧ loadProgressFromStorage (persistProgress p (Some localStorage)) = toJS p
  ∧ fromJS (loadProgressFromStorage (persistProgress p (Some localStorage))) = Some p.
Proof.
  split; [apply parse_stringify, toJS_integral|].
  rewrite load_persist. split; [done|]. apply fromJS_toJS.
Qed.

(** C10, as stated, fails: a [totalMisses] field that is present with the
    value [null] is not kept; the loaded total is 0. *)
Lemma load_keeps_present_fields_counterexample :
  ¬ (∀ (raw : string) (v : json),
        JSON.parse raw = Some v → fromJS v = None →
        get "totalMisses" (loadProgressFromStorage (Some {[LOCAL_STORAGE_KEY := raw]}))
        = Some (default (JNum 0 0) (get "totalMisses" v))).
Proof.
  intros H.
  specialize (H blob_null_total (JObj [("totalMisses", JNull)]) eq_refl eq_refl).
  vm_compute in H. discriminate H.
Qed.

(** C10, amended: when the stored text parses to [v], loading returns an
    object with exactly the properties [totalMisses] and [perHand]; each is
    [v]'s property of that name when [v] has it with a value other than
    [null], and the default (0, the empty object) when [v] lacks it or holds
    [null] there; the two properties are recovered independently. *)
Theorem load_partial_recovery
    (localStorage : gmap string string) (raw : string) (v : json) :
  localStorage !! LOCAL_STORAGE_KEY = Some raw → JSON.parse raw = Some v →
  let kept (name : string) (fallback : json) :=
    match get name v with
    | Some JNull | None => fallback
    | Some x => x
    end in
  loadProgressFromStorage (Some localStorage)
  = JObj [("totalMisses", kept "totalMisses" (JNum 0 0));
          ("perHand", kept "perHand" (JObj []))]
  ∧ get "totalMisses" (loadProgressFromStorage (Some localStorage))
    = Some (kept "totalMisses" (JNum 0 0))
  ∧ get "perHand" (loadProgressFromStorage (Some localStorage))
    = Some (kept "perHand" (JObj [])).
Proof.
  intros Hls Hparse kept.
  assert (loadProgressFromStorage (Some localStorage)
          = JObj [("totalMisses", kept "totalMisses" (JNum 0 0));
                  ("perHand", kept "perHand" (JObj []))]) as Hload.
  { unfold loadProgressFromStorage. rewrite Hls.
    destruct raw as [|c raw]; [done|]. rewrite Hparse.
    subst kept. by destruct v. }
  rewrite Hload. by repeat split.
Qed.

Lemma load_partial_recovery_witness :
  ({[LOCAL_STORAGE_KEY := blob_total_only]} : gmap string string) !! LOCAL_STORAGE_KEY
  = Some blob_total_only
  ∧ JSON.parse blob_total_only = Some (JObj [("totalMisses", JNum 5 0)])
  ∧ loadProgressFromStorage (Some {[LOCAL_STORAGE_KEY := blob_total_only]})
    = JObj [("totalMisses", JNum 5 0); ("perHand", JObj [])].
Proof.
  split; [reflexivity|]. split; [reflexivity|].
  exact (proj1 (load_partial_recovery {[LOCAL_STORAGE_KEY := blob_total_only]}
                  blob_total_only (JObj [("totalMisses", JNum 5 0)])
                  eq_refl eq_refl)).
Defined.

(** ** Further properties of the component *)

(** *** Steps of a quiz *)

Lemma run_invariant (P : AppState → Prop) st0 st :
  P st0 →
  (∀ value timestamp s, P s → P (handleAnswer value timestamp s)) →
  (∀ random s, P s → P (handleNext random s)) →
  (∀ random s, P s → P (ensureCurrentHand random s)) →
  run st0 st → P st.
Proof. intros H0 Ha Hn He. induction 1; auto. Qed.

Lemma handleAnswer_cases value timestamp st :
  handleAnswer value timestamp st = st
  ∨ (∃ h, currentHand st = Some h ∧ answerStatus st = idle ∧ value = Players h
        ∧ handleAnswer value timestamp st
          = {| hands := hands st; currentHand := currentHand st;
               answerStatus := correct; selectedValue := Some value;
               progress := progress st; window := window st |})
  ∨ (∃ h, currentHand st = Some h ∧ answerStatus st = idle ∧ value ≠ Players h
        ∧ handleAnswer value timestamp st
          = {| hands :=
                 map (fun hand =>
                        if String.eqb (Hand hand) (Hand h)
                        then withMiss hand (misses h + 1) timestamp
                        else hand)
                     (hands st);
               currentHand := Some (withMiss h (misses h + 1) timestamp);
               answerStatus := incorrect; selectedValue := Some value;
               progress := recordMiss (Hand h) (misses h + 1) timestamp (progress st);
               window :=
                 persistProgress
                   (recordMiss (Hand h) (misses h + 1) timestamp (progress st))
                   (window st) |}).
Proof.
  destruct (currentHand st) as [h|] eqn:Hc;
    [|left; apply handleAnswer_guard; auto].
  destruct (answerStatus st) eqn:Hs;
    try (left; apply handleAnswer_guard; right; congruence).
  destruct (decide (value = Players h)) as [Heq|Hne].
  - right; left. exists h. rewrite (handleAnswer_right _ _ _ h Hc Hs Heq).
    by rewrite Hc.
  - right; right. exists h. by rewrite (handleAnswer_wrong _ _ _ h Hc Hs Hne).
Qed.

Lemma handleNext_cases random st :
  (hands st = [] ∧ handleNext random st = st)
  ∨ (∃ h, h ∈ hands st
        ∧ handleNext random st
          = {| hands := hands st; currentHand := Some h;
               answerStatus := idle; selectedValue := None;
               progress := progress st; window := window st |}).
Proof.
  unfold handleNext. destruct (hands st) as [|x l] eqn:Hh; [by left|].
  right. destruct (pickWeightedHand_Some random (x :: l)) as (h & Hp & Hin); [done|].
  exists h. split; [done|]. simpl. by rewrite Hp.
Qed.

Lemma ensureCurrentHand_cases random st :
  ensureCurrentHand random st = st
  ∨ (∃ h, h ∈ hands st ∧ currentHand st = None
        ∧ ensureCurrentHand random st
          = {| hands := hands st; currentHand := Some h;
               answerStatus := answerStatus st; selectedValue := selectedValue st;
               progress := progress st; window := window st |}).
Proof.
  unfold ensureCurrentHand. destruct (hands st) as [|x l] eqn:Hh; [by left|].
  simpl. destruct (currentHand st) eqn:Hc; [by left|].
  right. destruct (pickWeightedHand_Some random (x :: l)) as (h & Hp & Hin); [done|].
  exists h. split; [done|]. split; [done|]. by rewrite Hp.
Qed.

Lemma handleAnswerFrom_fresh value timestamp st :
  handleAnswerFrom st value timestamp st = handleAnswer value timestamp st.
Proof.
  unfold handleAnswerFrom, handleAnswer.
  destruct (currentHand st) as [h|]; [|done]. reflexivity.
Qed.

Lemma handleAnswerFrom_guard render value timestamp st :
  currentHand render = None ∨ answerStatus render ≠ idle →
  handleAnswerFrom render value timestamp st = st.
Proof.
  unfold handleAnswerFrom. intros [-> | Hst]; [done|].
  destruct (currentHand render); [|done]. by destruct (answerStatus render).
Qed.

(** X1: a submission is ignored once the component has rendered again after
    an answer.  The handler of a render without current item, or whose status
    is not [idle], changes nothing, whatever the cells hold when it is
    called, and the render that follows an answer is such a render.  The
    handler of one and the same render called a second time is not ignored:
    after two wrong answers through it the total has risen by 2, while the
    record and the item hold that render's count plus 1, with the second
    timestamp and the second selection. *)
Theorem submission_after_render_ignored
    (render st : AppState) (value1 value2 : Z) (timestamp1 timestamp2 : string) :
  handleAnswerFrom st value1 timestamp1 st = handleAnswer value1 timestamp1 st
  ∧ (currentHand render = None ∨ answerStatus render ≠ idle →
     handleAnswerFrom render value2 timestamp2 st = st)
  ∧ handleAnswerFrom (handleAnswer value1 timestamp1 render) value2 timestamp2 st = st
  ∧ (∀ h, currentHand st = Some h → answerStatus st = idle →
       value1 ≠ Players h → value2 ≠ Players h →
       let st1 := handleAnswerFrom st value1 timestamp1 st in
       let st2 := handleAnswerFrom st value2 timestamp2 st1 in
       totalMisses (progress st2) = totalMisses (progress st) + 2
       ∧ perHand (progress st2) !! Hand h
         = Some {| entry_misses := misses h + 1;
                   entry_lastMissedAt := Some timestamp2 |}
       ∧ currentHand st2 = Some (withMiss h (misses h + 1) timestamp2)
       ∧ selectedValue st2 = Some value2
       ∧ window st2 = persistProgress (progress st2) (window st)).
Proof.
  split; [apply handleAnswerFrom_fresh|].
  split; [apply handleAnswerFrom_guard|].
  split.
  - apply handleAnswerFrom_guard.
    destruct (currentHand render) as [h|] eqn:Hc;
      [|rewrite handleAnswer_guard by (by left); by left].
    destruct (answerStatus render) eqn:Hs;
      try (rewrite handleAnswer_guard by (right; congruence); right; congruence).
    right. destruct (decide (value1 = Players h)) as [Heq|Hne].
    + by rewrite (handleAnswer_right _ _ _ h Hc Hs Heq).
    + by rewrite (handleAnswer_wrong _ _ _ h Hc Hs Hne).
  - intros h Hc Hs Hne1 Hne2. unfold handleAnswerFrom. rewrite Hc, Hs.
    apply Z.eqb_neq in Hne1, Hne2. rewrite Hne1, Hne2. cbn.
    split; [lia|]. split; [by rewrite lookup_insert_eq|].
    split; [reflexivity|]. split; [reflexivity|].
    destruct (window st) as [localStorage|]; [|reflexivity].
    cbn. f_equal. apply insert_insert_eq.
Qed.

Lemma submission_after_render_ignored_witness :
  currentHand stateAA = Some handAA ∧ answerStatus stateAA = idle
  ∧ 3 ≠ Players handAA ∧ 5 ≠ Players handAA
  ∧ let st1 := handleAnswerFrom stateAA 3 "2026-01-01T00:00:00.000Z" stateAA in
    let st2 := handleAnswerFrom stateAA 5 "2026-01-01T00:00:01.000Z" st1 in
    totalMisses (progress st2) = totalMisses (progress stateAA) + 2
    ∧ perHand (progress st2) !! Hand handAA
      = Some {| entry_misses := misses handAA + 1;
                entry_lastMissedAt := Some "2026-01-01T00:00:01.000Z" |}
    ∧ currentHand st2 = Some (withMiss handAA (misses handAA + 1) "2026-01-01T00:00:01.000Z")
    ∧ selectedValue st2 = Some 5
    ∧ window st2 = persistProgress (progress st2) (window stateAA).
Proof.
  assert (3 ≠ Players handAA) as Hne1 by (simpl; lia).
  assert (5 ≠ Players handAA) as Hne2 by (simpl; lia).
  split; [reflexivity|]. split; [reflexivity|].
  split; [exact Hne1|]. split; [exact Hne2|].
  exact (proj2 (proj2 (proj2 (submission_after_render_ignored stateAA stateAA 3 5
           "2026-01-01T00:00:00.000Z" "2026-01-01T00:00:01.000Z")))
           handAA eq_refl eq_refl Hne1 Hne2).
Defined.


(** X2: the answer buttons are disabled exactly in the states in which
    [handleAnswer] does nothing: the view and the handler's guard agree. *)
Theorem answerDisabled_iff_noop (value : Z) (timestamp : string) (st : AppState) :
  answerDisabled st = true ↔ handleAnswer value timestamp st = st.
Proof.
  unfold answerDisabled. split.
  - intros H. apply handleAnswer_guard.
    destruct (currentHand st); [|by left]. right. by destruct (answerStatus st).
  - intros Hnoop. destruct (currentHand st) as [h|] eqn:Hc; [|done].
    destruct (answerStatus st) eqn:Hs; try done. exfalso.
    destruct (decide (value = Players h)) as [Heq|Hne].
    + rewrite (handleAnswer_right _ _ _ h Hc Hs Heq) in Hnoop.
      apply (f_equal answerStatus) in Hnoop. simpl in Hnoop. congruence.
    + rewrite (handleAnswer_wrong _ _ _ h Hc Hs Hne) in Hnoop.
      apply (f_equal answerStatus) in Hnoop. simpl in Hnoop. congruence.
Qed.

(** X3: after a request for the next item on a non-empty list, an answer is
    always accepted and judged against the item that was picked: the status
    becomes [correct] exactly when the value is that item's [Players], and
    [incorrect] otherwise. *)
Theorem next_then_answer
    (random : Q) (value : Z) (timestamp : string) (st : AppState) :
  hands st ≠ [] →
  ∃ h, h ∈ hands st
    ∧ currentHand (handleNext random st) = Some h
    ∧ answerStatus (handleNext random st) = idle
    ∧ let st' := handleAnswer value timestamp (handleNext random st) in
      selectedValue st' = Some value
      ∧ (value = Players h → answerStatus st' = correct)
      ∧ (value ≠ Players h → answerStatus st' = incorrect).
Proof.
  intros Hne. destruct (handleNext_cases random st) as [[Hnil _] | (h & Hin & ->)];
    [done|].
  exists h. split; [done|]. split; [done|]. split; [done|]. cbv zeta.
  destruct (decide (value = Players h)) as [Heq|Hneq].
  - rewrite (handleAnswer_right _ _ _ h) by done. by repeat split.
  - rewrite (handleAnswer_wrong _ _ _ h) by done. by repeat split.
Qed.

Lemma next_then_answer_witness :
  hands stateAA ≠ []
  ∧ ∃ h, h ∈ hands stateAA
      ∧ currentHand (handleNext (1 # 2) stateAA) = Some h
      ∧ answerStatus (handleNext (1 # 2) stateAA) = idle
      ∧ let st' := handleAnswer 2 "2026-01-01T00:00:00.000Z" (handleNext (1 # 2) stateAA) in
        selectedValue st' = Some 2
        ∧ (2 = Players h → answerStatus st' = correct)
        ∧ (2 ≠ Players h → answerStatus st' = incorrect).
Proof.
  assert (hands stateAA ≠ []) as Hne by discriminate.
  split; [exact Hne|].
  exact (next_then_answer (1 # 2) 2 "2026-01-01T00:00:00.000Z" stateAA Hne).
Defined.

(** *** What holds all along a quiz *)

Lemma bootstrap_state rows random window st0 :
  bootstrap rows random window = Some st0 →
  ∃ stored, fromJS (loadProgressFromStorage window) = Some stored
    ∧ st0 = {| hands := map (normalizeHand stored) rows;
               currentHand := pickWeightedHand random (map (normalizeHand stored) rows);
               answerStatus := idle; selectedValue := None;
               progress := stored; window := window |}.
Proof.
  unfold bootstrap. destruct (fromJS _) as [stored|]; [|done].
  intros [= <-]. by exists stored.
Qed.

Lemma quiz_basics rows random window st0 st :
  bootstrap rows random window = Some st0 → run st0 st →
  (∀ h, currentHand st = Some h → h ∈ hands st)
  ∧ (hands st ≠ [] → is_Some (currentHand st))
  ∧ (answerStatus st = idle ↔ selectedValue st = None)
  ∧ (answerStatus st ≠ idle →
     ∃ h value, currentHand st = Some h ∧ selectedValue st = Some value
                ∧ (answerStatus st = correct ↔ value = Players h)).
Proof.
  intros Hboot Hrun. pattern st.
  eapply run_invariant; [| | | | exact Hrun]; cbv beta; clear st Hrun.
  - destruct (bootstrap_state _ _ _ _ Hboot) as (stored & _ & ->). simpl.
    split; [intros h; apply pickWeightedHand_elem|].
    split; [|done].
    intros Hne. destruct (pickWeightedHand_Some random _ Hne) as (h & -> & _). by eexists.
  - intros value timestamp s (Hin & Hcur & Hidle & Hans).
    destruct (handleAnswer_cases value timestamp s)
      as [-> | [(h & Hc & Hs & Hv & ->) | (h & Hc & Hs & Hv & ->)]]; [done|..]; simpl.
    + split; [done|]. split; [done|]. split; [done|].
      intros _. exists h, value. by rewrite Hc.
    + split.
      { intros ? [= <-]. apply list_elem_of_fmap. exists h.
        rewrite String.eqb_refl. split; [done|]. by apply Hin. }
      split; [by eexists|]. split; [done|].
      intros _. eexists _, value. split; [done|]. split; [done|]. simpl. done.
  - intros random' s (Hin & Hcur & Hidle & Hans).
    destruct (handleNext_cases random' s) as [[_ ->] | (h & Hh & ->)]; [done|]. simpl.
    split; [by intros ? [= <-]|]. split; [by eexists|]. done.
  - intros random' s (Hin & Hcur & Hidle & Hans).
    destruct (ensureCurrentHand_cases random' s) as [-> | (h & Hh & Hnone & ->)];
      [done|]. simpl.
    split; [by intros ? [= <-]|]. split; [by eexists|]. split; [done|].
    intros Hst. destruct (Hans Hst) as (h' & ? & Hc & _). congruence.
Qed.

(** X4: all along a quiz the status, the recorded selection and the current
    item agree: the status is [idle] exactly when no value is selected;
    otherwise there is a current item, one of the list, and the status is
    [correct] exactly when the selected value is its [Players]; the banner,
    when shown, says so for the number it displays. *)
Theorem verdict_matches_selection
    (rows : list ParsedRow) (random : Q) (window : option (gmap string string))
    (st0 st : AppState) :
  bootstrap rows random window = Some st0 → run st0 st →
  (answerStatus st = idle ↔ selectedValue st = None)
  ∧ (answerStatus st ≠ idle →
     ∃ h value, currentHand st = Some h ∧ h ∈ hands st
                ∧ selectedValue st = Some value
                ∧ (answerStatus st = correct ↔ value = Players h))
  ∧ (∀ verdict players color,
       resultBanner st = Some (verdict, players, color) →
       ∃ value, selectedValue st = Some value
                ∧ (verdict = "正解！" ↔ value = players)).
Proof.
  intros Hboot Hrun.
  destruct (quiz_basics _ _ _ _ _ Hboot Hrun) as (Hin & _ & Hidle & Hans).
  split; [done|]. split.
  - intros Hst. destruct (Hans Hst) as (h & value & Hc & Hsel & Hiff).
    exists h, value. split; [done|]. split; [by apply Hin|]. done.
  - intros verdict players color. unfold resultBanner.
    destruct (answerStatus st) eqn:Hs; [done|..];
      (destruct (Hans ltac:(done)) as (h & value & Hc & Hsel & Hiff));
      rewrite Hc; intros [= <- <- <-]; exists value; (split; [done|]).
    + split; [intros _; by apply Hiff | done].
    + split; [done|]. intros Hv. apply Hiff in Hv. done.
Qed.

Lemma verdict_matches_selection_witness :
  bootstrap [rowAA] (1 # 2) (Some ∅) = Some stateAA
  ∧ run stateAA (handleAnswer 3 "2026-01-01T00:00:00.000Z" stateAA)
  ∧ (answerStatus (handleAnswer 3 "2026-01-01T00:00:00.000Z" stateAA) = idle
     ↔ selectedValue (handleAnswer 3 "2026-01-01T00:00:00.000Z" stateAA) = None).
Proof.
  assert (run stateAA (handleAnswer 3 "2026-01-01T00:00:00.000Z" stateAA)) as Hrun
    by (apply run_answer, run_start).
  split; [reflexivity|]. split; [exact Hrun|].
  exact (proj1 (verdict_matches_selection [rowAA] (1 # 2) (Some ∅) stateAA _
                  eq_refl Hrun)).
Defined.

(** X5: all along a quiz there is a current item whenever the list has
    items, so the effect that picks one when none is current never changes
    a state of the quiz. *)
Theorem current_item_always_set
    (rows : list ParsedRow) (random : Q) (window : option (gmap string string))
    (st0 st : AppState) :
  bootstrap rows random window = Some st0 → run st0 st →
  (hands st ≠ [] → ∃ h, currentHand st = Some h ∧ h ∈ hands st)
  ∧ (∀ random', ensureCurrentHand random' st = st)
  ∧ (handLabel st = "--" → hands st = [] ∨ ∃ h, currentHand st = Some h ∧ Hand h = "--").
Proof.
  intros Hboot Hrun.
  destruct (quiz_basics _ _ _ _ _ Hboot Hrun) as (Hin & Hcur & _ & _).
  split; [|split].
  - intros Hne. destruct (Hcur Hne) as [h Hh]. exists h. split; [done|]. by apply Hin.
  - intros random'.
    destruct (ensureCurrentHand_cases random' st) as [-> | (h & Hh & Hnone & _)]; [done|].
    destruct Hcur as [h' Hh']; [|congruence]. intros Hnil. rewrite Hnil in Hh.
    by apply elem_of_nil in Hh.
  - unfold handLabel. intros Hlabel.
    destruct (currentHand st) as [h|] eqn:Hc; [right; by exists h|].
    left. destruct (hands st) as [|x l] eqn:Hh; [done|].
    destruct Hcur as [h Hh']; done.
Qed.

Lemma current_item_always_set_witness :
  bootstrap [rowAA] (1 # 2) (Some ∅) = Some stateAA
  ∧ run stateAA (handleNext (1 # 3) stateAA)
  ∧ ∀ random', ensureCurrentHand random' (handleNext (1 # 3) stateAA)
               = handleNext (1 # 3) stateAA.
Proof.
  assert (run stateAA (handleNext (1 # 3) stateAA)) as Hrun
    by (apply run_next, run_start).
  split; [reflexivity|]. split; [exact Hrun|].
  exact (proj1 (proj2 (current_item_always_set [rowAA] (1 # 2) (Some ∅) stateAA _
                         eq_refl Hrun))).
Defined.

(** X6: all along a quiz with a non-empty list exactly one of the two
    controls is enabled: the answer buttons while the status is [idle], the
    next button (together with the result banner) once an answer was given.
    With an empty list both controls are disabled and no banner is shown. *)
Theorem one_control_enabled
    (rows : list ParsedRow) (random : Q) (window : option (gmap string string))
    (st0 st : AppState) :
  bootstrap rows random window = Some st0 → run st0 st →
  (hands st ≠ [] → answerDisabled st = negb (nextDisabled st))
  ∧ (hands st = [] → answerDisabled st = true ∧ nextDisabled st = true)
  ∧ (is_Some (resultBanner st) ↔ nextDisabled st = false).
Proof.
  intros Hboot Hrun.
  destruct (quiz_basics _ _ _ _ _ Hboot Hrun) as (Hin & Hcur & _ & Hans).
  unfold answerDisabled, nextDisabled, resultBanner.
  split; [|split].
  - intros Hne. destruct (Hcur Hne) as [h ->]. by destruct (answerStatus st).
  - intros Hnil.
    assert (currentHand st = None) as Hnone.
    { destruct (currentHand st) as [h|]; [|done]. specialize (Hin h eq_refl).
      rewrite Hnil in Hin. by apply elem_of_nil in Hin. }
    assert (answerStatus st = idle) as Hidle.
    { destruct (answerStatus st); [done|..];
        destruct (Hans ltac:(done)) as (h & ? & Hc & _); congruence. }
    by rewrite Hnone, Hidle.
  - destruct (answerStatus st) eqn:Hs.
    + split; [by intros [? ?]|done].
    + destruct (Hans ltac:(done)) as (h & ? & -> & _). split; [done|by eexists].
    + destruct (Hans ltac:(done)) as (h & ? & -> & _). split; [done|by eexists].
Qed.

Lemma one_control_enabled_witness :
  bootstrap [rowAA] (1 # 2) (Some ∅) = Some stateAA
  ∧ run stateAA (handleAnswer 3 "2026-01-01T00:00:00.000Z" stateAA)
  ∧ (is_Some (resultBanner (handleAnswer 3 "2026-01-01T00:00:00.000Z" stateAA))
     ↔ nextDisabled (handleAnswer 3 "2026-01-01T00:00:00.000Z" stateAA) = false).
Proof.
  assert (run stateAA (handleAnswer 3 "2026-01-01T00:00:00.000Z" stateAA)) as Hrun
    by (apply run_answer, run_start).
  split; [reflexivity|]. split; [exact Hrun|].
  exact (proj2 (proj2 (one_control_enabled [rowAA] (1 # 2) (Some ∅) stateAA _
                         eq_refl Hrun))).
Defined.

(** *** The items, the store and the storage *)

Lemma normalizeHand_after_miss stored key count timestamp row :
  (if String.eqb (Hand (normalizeHand stored row)) key
   then withMiss (normalizeHand stored row) count timestamp
   else normalizeHand stored row)
  = normalizeHand (recordMiss key count timestamp stored) row.
Proof.
  unfold normalizeHand, recordMiss, withMiss. simpl.
  destruct (String.eqb_spec (row_Hand row) key) as [->|Hne].
  - by rewrite lookup_insert_eq.
  - by rewrite lookup_insert_ne.
Qed.

Lemma quiz_items rows random window st0 st :
  bootstrap rows random window = Some st0 → run st0 st →
  hands st = map (normalizeHand (progress st)) rows.
Proof.
  intros Hboot Hrun. pattern st.
  eapply run_invariant; [| | | | exact Hrun]; cbv beta; clear st Hrun.
  - by destruct (bootstrap_state _ _ _ _ Hboot) as (stored & _ & ->).
  - intros value timestamp s Hs.
    destruct (handleAnswer_cases value timestamp s)
      as [-> | [(h & _ & _ & _ & ->) | (h & _ & _ & _ & ->)]]; [done..|]. simpl.
    rewrite Hs, map_map. apply map_ext. intros row. apply normalizeHand_after_miss.
  - intros random' s Hs.
    by destruct (handleNext_cases random' s) as [[_ ->] | (h & _ & ->)].
  - intros random' s Hs.
    by destruct (ensureCurrentHand_cases random' s) as [-> | (h & _ & _ & ->)].
Qed.

(** X7: when the stored progress is absent, unreadable or a well-formed
    store (a whole-number total, records that each hold a whole-number
    count), which is when [bootstrap] gives a state, and every answer is
    handled by the handler of the current render, the item list is all along
    the quiz the table merged with the current store: every item keeps its
    row's key, colour and number of players; its weight and timestamp are
    those of its stored record when there is one, and otherwise the row's
    weight (at least 1) and no timestamp. *)
Theorem items_are_table_merged_with_store
    (rows : list ParsedRow) (random : Q) (window : option (gmap string string))
    (st0 st : AppState) :
  bootstrap rows random window = Some st0 → run st0 st →
  length (hands st) = length rows
  ∧ ∀ i row, rows !! i = Some row →
      ∃ h, hands st !! i = Some h
        ∧ Hand h = row_Hand row ∧ Color h = row_Color row
        ∧ Players h = row_Players row
        ∧ match perHand (progress st) !! row_Hand row with
          | Some e => misses h = entry_misses e ∧ lastMissedAt h = entry_lastMissedAt e
          | None => misses h = Z.max 1 (row_misses row) ∧ lastMissedAt h = None
          end.
Proof.
  intros Hboot Hrun. rewrite (quiz_items _ _ _ _ _ Hboot Hrun).
  split; [apply length_map|].
  intros i row Hi. exists (normalizeHand (progress st) row).
  split; [by rewrite list_lookup_fmap, Hi|].
  unfold normalizeHand. simpl.
  by destruct (perHand (progress st) !! row_Hand row).
Qed.

Lemma items_are_table_merged_with_store_witness :
  bootstrap [rowAA] (1 # 2) (Some ∅) = Some stateAA
  ∧ run stateAA (handleAnswer 3 "2026-01-01T00:00:00.000Z" stateAA)
  ∧ length (hands (handleAnswer 3 "2026-01-01T00:00:00.000Z" stateAA)) = length [rowAA].
Proof.
  assert (run stateAA (handleAnswer 3 "2026-01-01T00:00:00.000Z" stateAA)) as Hrun
    by (apply run_answer, run_start).
  split; [reflexivity|]. split; [exact Hrun|].
  exact (proj1 (items_are_table_merged_with_store [rowAA] (1 # 2) (Some ∅) stateAA _
                  eq_refl Hrun)).
Defined.

Lemma quiz_storage rows random localStorage st0 st :
  bootstrap rows random (Some localStorage) = Some st0 → run st0 st →
  ∃ localStorage',
    window st = Some localStorage'
    ∧ fromJS (loadProgressFromStorage (window st)) = Some (progress st)
    ∧ ∀ key, key ≠ LOCAL_STORAGE_KEY → localStorage' !! key = localStorage !! key.
Proof.
  intros Hboot Hrun. pattern st.
  eapply run_invariant; [| | | | exact Hrun]; cbv beta; clear st Hrun.
  - destruct (bootstrap_state _ _ _ _ Hboot) as (stored & Hstored & ->). simpl.
    by exists localStorage.
  - intros value timestamp s (ls & Hw & Hload & Hframe).
    destruct (handleAnswer_cases value timestamp s)
      as [-> | [(h & _ & _ & _ & ->) | (h & _ & _ & _ & ->)]]; simpl;
      [by exists ls .. |].
    rewrite Hw. eexists. split; [reflexivity|].
    split; [by rewrite load_persist, fromJS_toJS|].
    intros key Hkey. rewrite lookup_insert_ne by done. by apply Hframe.
  - intros random' s (ls & Hw & Hload & Hframe).
    destruct (handleNext_cases random' s) as [[_ ->] | (h & _ & ->)]; by exists ls.
  - intros random' s (ls & Hw & Hload & Hframe).
    destruct (ensureCurrentHand_cases random' s) as [-> | (h & _ & _ & ->)];
      by exists ls.
Qed.

(** X8: in a browser, reloading the page at any moment of a quiz starts
    again from the same store and the same item list: the persisted text
    always reads back as the current store, and start-up from the current
    storage, whatever it draws, merges the table into the same items. *)
Theorem reload_restores_progress
    (rows : list ParsedRow) (random random' : Q) (localStorage : gmap string string)
    (st0 st : AppState) :
  bootstrap rows random (Some localStorage) = Some st0 → run st0 st →
  fromJS (loadProgressFromStorage (window st)) = Some (progress st)
  ∧ ∃ st', bootstrap rows random' (window st) = Some st'
      ∧ progress st' = progress st ∧ hands st' = hands st
      ∧ answerStatus st' = idle ∧ selectedValue st' = None.
Proof.
  intros Hboot Hrun.
  destruct (quiz_storage _ _ _ _ _ Hboot Hrun) as (ls & Hw & Hload & _).
  split; [done|]. unfold bootstrap. rewrite Hload. simpl.
  eexists. split; [reflexivity|]. simpl.
  by rewrite (quiz_items _ _ _ _ _ Hboot Hrun).
Qed.

Lemma reload_restores_progress_witness :
  bootstrap [rowAA] (1 # 2) (Some ∅) = Some stateAA
  ∧ run stateAA (handleAnswer 3 "2026-01-01T00:00:00.000Z" stateAA)
  ∧ fromJS (loadProgressFromStorage
              (window (handleAnswer 3 "2026-01-01T00:00:00.000Z" stateAA)))
    = Some (progress (handleAnswer 3 "2026-01-01T00:00:00.000Z" stateAA)).
Proof.
  assert (run stateAA (handleAnswer 3 "2026-01-01T00:00:00.000Z" stateAA)) as Hrun
    by (apply run_answer, run_start).
  split; [reflexivity|]. split; [exact Hrun|].
  exact (proj1 (reload_restores_progress [rowAA] (1 # 2) (1 # 3) ∅ stateAA _
                  eq_refl Hrun)).
Defined.

(** X9: the handlers write nothing to the storage but the item of the
    program's own key: all along a quiz in a browser every other item of
    the storage is as start-up found it; without a window there never is a
    storage. *)
Theorem storage_frame
    (rows : list ParsedRow) (random : Q) (window0 : option (gmap string string))
    (st0 st : AppState) :
  bootstrap rows random window0 = Some st0 → run st0 st →
  match window0 with
  | None => window st = None
  | Some localStorage =>
      ∃ localStorage', window st = Some localStorage'
        ∧ ∀ key, key ≠ LOCAL_STORAGE_KEY → localStorage' !! key = localStorage !! key
  end.
Proof.
  intros Hboot Hrun. destruct window0 as [localStorage|].
  - destruct (quiz_storage _ _ _ _ _ Hboot Hrun) as (ls & Hw & _ & Hframe).
    by exists ls.
  - pattern st. eapply run_invariant; [| | | | exact Hrun]; cbv beta; clear st Hrun.
    + by destruct (bootstrap_state _ _ _ _ Hboot) as (stored & _ & ->).
    + intros value timestamp s Hs.
      destruct (handleAnswer_cases value timestamp s)
        as [-> | [(h & _ & _ & _ & ->) | (h & _ & _ & _ & ->)]]; simpl; [done..|].
      by rewrite Hs.
    + intros random' s Hs.
      by destruct (handleNext_cases random' s) as [[_ ->] | (h & _ & ->)].
    + intros random' s Hs.
      by destruct (ensureCurrentHand_cases random' s) as [-> | (h & _ & _ & ->)].
Qed.

Lemma storage_frame_witness :
  bootstrap [rowAA] (1 # 2) (Some ∅) = Some stateAA
  ∧ run stateAA (handleAnswer 3 "2026-01-01T00:00:00.000Z" stateAA)
  ∧ ∃ localStorage',
      window (handleAnswer 3 "2026-01-01T00:00:00.000Z" stateAA) = Some localStorage'
      ∧ ∀ key, key ≠ LOCAL_STORAGE_KEY →
               localStorage' !! key = (∅ : gmap string string) !! key.
Proof.
  assert (run stateAA (handleAnswer 3 "2026-01-01T00:00:00.000Z" stateAA)) as Hrun
    by (apply run_answer, run_start).
  split; [reflexivity|]. split; [exact Hrun|].
  exact (storage_frame [rowAA] (1 # 2) (Some ∅) stateAA _ eq_refl Hrun).
Defined.

Lemma quiz_coherent rows random window st0 st :
  bootstrap rows random window = Some st0 → run st0 st → coherent st.
Proof.
  intros Hboot Hrun. split.
  - rewrite (quiz_items _ _ _ _ _ Hboot Hrun).
    intros h e [row [-> _]]%list_elem_of_fmap. simpl. by intros ->.
  - apply (quiz_basics _ _ _ _ _ Hboot Hrun).
Qed.

Lemma run_trans st0 st1 st2 : run st0 st1 → run st1 st2 → run st0 st2.
Proof.
  intros H01 H12. induction H12; [done|..].
  - by apply run_answer.
  - by apply run_next.
  - by apply run_effect.
Qed.

(** X10: all along a quiz that started from an absent, unreadable or
    well-formed stored progress and whose answers are each handled by the
    handler of the current render, the store only grows: from any state of
    the quiz to any later one the total never decreases, no record is
    removed, and the count of a record never decreases. *)
Theorem store_only_grows
    (rows : list ParsedRow) (random : Q) (window : option (gmap string string))
    (st0 st1 st2 : AppState) :
  bootstrap rows random window = Some st0 → run st0 st1 → run st1 st2 →
  totalMisses (progress st1) ≤ totalMisses (progress st2)
  ∧ ∀ key e1, perHand (progress st1) !! key = Some e1 →
      ∃ e2, perHand (progress st2) !! key = Some e2
            ∧ entry_misses e1 ≤ entry_misses e2.
Proof.
  intros Hboot Hrun1 Hrun.
  induction Hrun as [| value timestamp s Hrun [IHt IHr] | random' s Hrun IH
                     | random' s Hrun IH].
  - split; [lia|]. intros key e1 He. exists e1. split; [done|lia].
  - destruct (handleAnswer_cases value timestamp s)
      as [-> | [(h & _ & _ & _ & ->) | (h & Hc & _ & _ & ->)]]; [done..|]. simpl.
    split; [lia|]. intros key e1 He1. destruct (IHr key e1 He1) as (e & He & Hle).
    destruct (decide (key = Hand h)) as [->|Hne].
    + rewrite lookup_insert_eq. eexists. split; [done|]. simpl.
      destruct (quiz_coherent _ _ _ _ _ Hboot (run_trans _ _ _ Hrun1 Hrun))
        as [Hrec Hin].
      rewrite (Hrec h e (Hin h Hc) He). lia.
    + rewrite lookup_insert_ne by done. by exists e.
  - by destruct (handleNext_cases random' s) as [[_ ->] | (h & _ & ->)].
  - by destruct (ensureCurrentHand_cases random' s) as [-> | (h & _ & _ & ->)].
Qed.

Lemma store_only_grows_witness :
  let st1 := handleAnswer 3 "2026-01-01T00:00:00.000Z" stateAA in
  let st2 := handleAnswer 5 "2026-01-01T00:00:09.000Z" (handleNext (1 # 2) st1) in
  bootstrap [rowAA] (1 # 2) (Some ∅) = Some stateAA
  ∧ run stateAA st1 ∧ run st1 st2
  ∧ totalMisses (progress st1) ≤ totalMisses (progress st2)
  ∧ ∀ key e1, perHand (progress st1) !! key = Some e1 →
      ∃ e2, perHand (progress st2) !! key = Some e2
            ∧ entry_misses e1 ≤ entry_misses e2.
Proof.
  intros st1 st2.
  assert (run stateAA st1) as Hrun1 by (apply run_answer, run_start).
  assert (run st1 st2) as Hrun2 by (apply run_answer, run_next, run_start).
  split; [reflexivity|]. split; [exact Hrun1|]. split; [exact Hrun2|].
  exact (store_only_grows [rowAA] (1 # 2) (Some ∅) stateAA st1 st2 eq_refl Hrun1 Hrun2).
Defined.

Lemma sumMisses_untouched key count timestamp l :
  key ∉ (Hand <$> l) →
  map (fun hand => if String.eqb (Hand hand) key
                   then withMiss hand count timestamp else hand) l = l.
Proof.
  induction l as [|x l IH]; [done|]. rewrite fmap_cons, not_elem_of_cons.
  intros [Hx Hl]. simpl. rewrite IH by done.
  apply not_eq_sym, String.eqb_neq in Hx. by rewrite Hx.
Qed.

Lemma sumMisses_miss h count timestamp l :
  NoDup (Hand <$> l) → h ∈ l →
  sumMisses (map (fun hand => if String.eqb (Hand hand) (Hand h)
                              then withMiss hand count timestamp else hand) l)
  = sumMisses l - misses h + count.
Proof.
  induction l as [|x l IH]; [by intros _ ?%elem_of_nil|].
  rewrite fmap_cons, NoDup_cons. intros [Hx Hnd] Hin.
  apply elem_of_cons in Hin as [<-|Hin].
  - simpl. rewrite String.eqb_refl, sumMisses_untouched by done. simpl. lia.
  - simpl. assert (Hand x ≠ Hand h) as Hne.
    { intros Heq. apply Hx. rewrite Heq. by apply list_elem_of_fmap_2. }
    apply String.eqb_neq in Hne. rewrite Hne, IH by done. lia.
Qed.

Lemma withMiss_keys key count timestamp (l : list HandRecord) :
  Hand <$> map (fun hand => if String.eqb (Hand hand) key
                            then withMiss hand count timestamp else hand) l
  = Hand <$> l.
Proof.
  induction l as [|x l IH]; [done|].
  change (Hand (if String.eqb (Hand x) key then withMiss x count timestamp else x)
          :: (Hand <$> map (fun hand => if String.eqb (Hand hand) key
                                        then withMiss hand count timestamp else hand) l)
          = Hand x :: (Hand <$> l)).
  rewrite IH. by destruct (String.eqb (Hand x) key).
Qed.

Lemma withMiss_elem h count timestamp (l : list HandRecord) :
  h ∈ l →
  withMiss h count timestamp
  ∈ map (fun hand => if String.eqb (Hand hand) (Hand h)
                     then withMiss hand count timestamp else hand) l.
Proof.
  induction l as [|x l IH]; [by intros ?%elem_of_nil|].
  intros [<-|Hin]%elem_of_cons; simpl.
  - rewrite String.eqb_refl. apply list_elem_of_here.
  - by apply list_elem_of_further, IH.
Qed.

(** From any state whose current item is one of the items, the keys of the
    items stay as they are and the current item stays one of the items. *)
Lemma run_keys_current st0 st :
  (∀ h, currentHand st0 = Some h → h ∈ hands st0) → run st0 st →
  Hand <$> hands st = Hand <$> hands st0
  ∧ ∀ h, currentHand st = Some h → h ∈ hands st.
Proof.
  intros Hcur0 Hrun. pattern st.
  eapply run_invariant; [| | | | exact Hrun]; cbv beta; clear st Hrun.
  - done.
  - intros value timestamp s [Hkeys Hcur].
    destruct (handleAnswer_cases value timestamp s)
      as [-> | [(h & _ & _ & _ & ->) | (h & Hc & _ & _ & ->)]]; [done..|]. simpl.
    split; [by rewrite withMiss_keys|].
    intros h' [= <-]. by apply withMiss_elem, Hcur.
  - intros random s [Hkeys Hcur].
    destruct (handleNext_cases random s) as [[_ ->] | (h & Hin & ->)]; [done|].
    simpl. split; [done|]. by intros h' [= <-].
  - intros random s [Hkeys Hcur].
    destruct (ensureCurrentHand_cases random s) as [-> | (h & Hin & _ & ->)]; [done|].
    simpl. split; [done|]. by intros h' [= <-].
Qed.

(** X11: from any state whose items have pairwise distinct keys and whose
    current item is one of them, and with every answer handled by the
    handler of the current render, the two counters of the program stay in
    step: the sum of the items' weights grows by exactly as much as the
    store's total.  Counts are whole numbers here, as they are in a
    well-formed store. *)
Theorem weights_follow_total (st0 st : AppState) :
  NoDup (Hand <$> hands st0) →
  (∀ h, currentHand st0 = Some h → h ∈ hands st0) →
  run st0 st →
  sumMisses (hands st) - sumMisses (hands st0)
  = totalMisses (progress st) - totalMisses (progress st0).
Proof.
  intros Hnd Hcur0 Hrun.
  induction Hrun as [| value timestamp s Hrun IH | random' s Hrun IH
                     | random' s Hrun IH].
  - lia.
  - destruct (run_keys_current st0 s Hcur0 Hrun) as [Hkeys Hcur].
    destruct (handleAnswer_cases value timestamp s)
      as [-> | [(h & _ & _ & _ & ->) | (h & Hc & _ & _ & ->)]]; [done..|]. simpl.
    rewrite sumMisses_miss; [lia|by rewrite Hkeys|by apply Hcur].
  - by destruct (handleNext_cases random' s) as [[_ ->] | (h & _ & ->)].
  - by destruct (ensureCurrentHand_cases random' s) as [-> | (h & _ & _ & ->)].
Qed.

Lemma weights_follow_total_witness :
  NoDup (Hand <$> hands stateAA)
  ∧ (∀ h, currentHand stateAA = Some h → h ∈ hands stateAA)
  ∧ run stateAA (handleAnswer 3 "2026-01-01T00:00:00.000Z" stateAA)
  ∧ sumMisses (hands (handleAnswer 3 "2026-01-01T00:00:00.000Z" stateAA))
    - sumMisses (hands stateAA)
    = totalMisses (progress (handleAnswer 3 "2026-01-01T00:00:00.000Z" stateAA))
      - totalMisses (progress stateAA).
Proof.
  assert (NoDup (Hand <$> hands stateAA)) as Hnd by (apply NoDup_singleton).
  assert (∀ h, currentHand stateAA = Some h → h ∈ hands stateAA) as Hcur
    by (intros h [= <-]; apply list_elem_of_here).
  assert (run stateAA (handleAnswer 3 "2026-01-01T00:00:00.000Z" stateAA)) as Hrun
    by (apply run_answer, run_start).
  split; [exact Hnd|]. split; [exact Hcur|]. split; [exact Hrun|].
  exact (weights_follow_total stateAA _ Hnd Hcur Hrun).
Defined.

(** With a repeated key the sum of the weights runs ahead of the total: one
    wrong answer raises the weight of both copies. *)
Example weights_run_ahead_on_repeated_key :
  bootstrap [rowAA; rowAA] (1 # 2) (Some ∅)
  = Some {| hands := [handAA; handAA]; currentHand := Some handAA;
            answerStatus := idle; selectedValue := None;
            progress := DEFAULT_PROGRESS; window := Some ∅ |}
  ∧ ∀ st0, bootstrap [rowAA; rowAA] (1 # 2) (Some ∅) = Some st0 →
      sumMisses (hands (handleAnswer 3 "2026-01-01T00:00:00.000Z" st0))
      - sumMisses (hands st0) = 2
      ∧ totalMisses (progress (handleAnswer 3 "2026-01-01T00:00:00.000Z" st0))
        - totalMisses (progress st0) = 1.
Proof. split; [reflexivity|]. by intros st0 [= <-]. Qed.

Lemma totalWeight_sumMisses hands :
  (∀ h, h ∈ hands → 1 ≤ misses h) → totalWeight hands = sumMisses hands.
Proof.
  induction hands as [|x hands IH]; [done|]. intros Hpos.
  rewrite totalWeight_cons. simpl. rewrite IH.
  - pose proof (Hpos x ltac:(apply list_elem_of_here)).
    unfold ensureMinimumMisses. lia.
  - intros h Hh. apply Hpos. by apply list_elem_of_further.
Qed.

Lemma run_positive st0 st :
  (∀ key e, perHand (progress st0) !! key = Some e → 1 ≤ entry_misses e) →
  (∀ h, h ∈ hands st0 → 1 ≤ misses h) →
  (∀ h, currentHand st0 = Some h → h ∈ hands st0) →
  run st0 st →
  (∀ key e, perHand (progress st) !! key = Some e → 1 ≤ entry_misses e)
  ∧ (∀ h, h ∈ hands st → 1 ≤ misses h).
Proof.
  intros Hstore0 Hitems0 Hcur0 Hrun.
  induction Hrun as [| value timestamp s Hrun [IHs IHi] | random' s Hrun IH
                     | random' s Hrun IH]; [done|..].
  - destruct (run_keys_current st0 s Hcur0 Hrun) as [_ Hcur].
    destruct (handleAnswer_cases value timestamp s)
      as [-> | [(h & _ & _ & _ & ->) | (h & Hc & _ & _ & ->)]]; [done..|]. simpl.
    pose proof (IHi h (Hcur h Hc)) as Hh. split.
    + intros key e. destruct (decide (key = Hand h)) as [->|Hne].
      * rewrite lookup_insert_eq. intros [= <-]. simpl. lia.
      * rewrite lookup_insert_ne by done. apply IHs.
    + intros x [y [-> Hy]]%list_elem_of_fmap.
      destruct (String.eqb (Hand y) (Hand h)); [simpl; lia|by apply IHi].
  - by destruct (handleNext_cases random' s) as [[_ ->] | (h & _ & ->)].
  - by destruct (ensureCurrentHand_cases random' s) as [-> | (h & _ & _ & ->)].
Qed.

(** X12: from any state in which every stored count and every item's weight
    is a whole number at least 1 and the current item is one of the items,
    every weight stays at 1 or more, in the items and in the store, as long
    as every answer is handled by the handler of the current render; the
    floor of the draw then changes nothing, and the total weight of the draw
    is the plain sum of the items' weights. *)
Theorem weights_stay_positive (st0 st : AppState) :
  (∀ key e, perHand (progress st0) !! key = Some e → 1 ≤ entry_misses e) →
  (∀ h, h ∈ hands st0 → 1 ≤ misses h) →
  (∀ h, currentHand st0 = Some h → h ∈ hands st0) →
  run st0 st →
  (∀ key e, perHand (progress st) !! key = Some e → 1 ≤ entry_misses e)
  ∧ (∀ h, h ∈ hands st → 1 ≤ misses h ∧ ensureMinimumMisses (misses h) = misses h)
  ∧ totalWeight (hands st) = sumMisses (hands st).
Proof.
  intros Hstore0 Hitems0 Hcur0 Hrun.
  destruct (run_positive _ _ Hstore0 Hitems0 Hcur0 Hrun) as [Hstore Hitems].
  split; [done|]. split.
  - intros h Hh. pose proof (Hitems h Hh).
    split; [done|]. unfold ensureMinimumMisses. lia.
  - by apply totalWeight_sumMisses.
Qed.

Lemma weights_stay_positive_witness :
  (∀ key e, perHand (progress stateAA) !! key = Some e → 1 ≤ entry_misses e)
  ∧ (∀ h, h ∈ hands stateAA → 1 ≤ misses h)
  ∧ (∀ h, currentHand stateAA = Some h → h ∈ hands stateAA)
  ∧ run stateAA (handleAnswer 3 "2026-01-01T00:00:00.000Z" stateAA)
  ∧ totalWeight (hands (handleAnswer 3 "2026-01-01T00:00:00.000Z" stateAA))
    = sumMisses (hands (handleAnswer 3 "2026-01-01T00:00:00.000Z" stateAA)).
Proof.
  assert (∀ key e, perHand (progress stateAA) !! key = Some e → 1 ≤ entry_misses e)
    as Hpos by (intros key e H; simpl in H; by rewrite lookup_empty in H).
  assert (∀ h, h ∈ hands stateAA → 1 ≤ misses h) as Hitems
    by (intros h ->%list_elem_of_singleton; simpl; lia).
  assert (∀ h, currentHand stateAA = Some h → h ∈ hands stateAA) as Hcur
    by (intros h [= <-]; apply list_elem_of_here).
  assert (run stateAA (handleAnswer 3 "2026-01-01T00:00:00.000Z" stateAA)) as Hrun
    by (apply run_answer, run_start).
  split; [exact Hpos|]. split; [exact Hitems|]. split; [exact Hcur|].
  split; [exact Hrun|].
  exact (proj2 (proj2 (weights_stay_positive stateAA _ Hpos Hitems Hcur Hrun))).
Defined.


(** *** The draw *)

(** With the product taken exactly, [pickWeightedHand] is [pickAt] at it. *)
Lemma pickWeightedHand_pickAt random hands :
  pickWeightedHand random hands
  = pickAt (random * inject_Z (totalWeight hands))%Q hands.
Proof. reflexivity. Qed.

Lemma walk_first threshold h hands :
  (threshold <= inject_Z (ensureMinimumMisses (misses h)))%Q →
  walk threshold (h :: hands) = Some h.
Proof.
  intros Hle. simpl walk.
  destruct (Qle_bool _ 0) eqn:Hstop; [done|]. exfalso.
  assert (¬ (threshold - inject_Z (ensureMinimumMisses (misses h)) <= 0)%Q) as Hgo.
  { rewrite <- Qle_bool_iff. congruence. }
  apply Hgo. lra.
Qed.

(** X13: the draw is proportional to the effective weights.  Whatever value
    the product [Math.random() * totalWeight] took, the item at index [i] is
    returned when that threshold lies in the interval from the weight before
    the item (excluded, but included for the first item) to that weight plus
    the item's own effective weight (included); the interval lies within the
    total and is at least 1 long.  The loop's subtractions of whole weights
    are taken exactly. *)
Theorem draw_selects_by_weight
    (hands : list HandRecord) (i : nat) (h : HandRecord) (threshold : Q) :
  hands !! i = Some h →
  let before := totalWeight (take i hands) in
  let weight := ensureMinimumMisses (misses h) in
  let total := totalWeight hands in
  i = 0%nat ∨ (inject_Z before < threshold)%Q →
  (threshold <= inject_Z (before + weight))%Q →
  pickAt threshold hands = Some h
  ∧ 0 ≤ before ∧ 1 ≤ weight ∧ before + weight ≤ total.
Proof.
  intros Hi before weight total Hlo Hhi.
  destruct (totalWeight_split hands i h Hi) as [Htake Htotal].
  split.
  - unfold pickAt. destruct hands as [|x hands]; [done|]. simpl Nat.eqb. cbv iota.
    destruct Hlo as [-> | Hlo].
    + injection Hi as ->. rewrite walk_first; [done|].
      subst before. change (totalWeight (take 0 (h :: hands))) with 0 in Hhi.
      by rewrite Z.add_0_l in Hhi.
    + rewrite (walk_select _ i h threshold Hi Hlo); [done|]. by rewrite Htake.
  - pose proof (totalWeight_length (take i hands)).
    pose proof (totalWeight_length (drop (S i) hands)).
    pose proof (ensureMinimumMisses_floor (misses h)).
    subst before weight total. lia.
Qed.

Lemma draw_selects_by_weight_witness :
  [handAA; handLow] !! 1%nat = Some handLow
  ∧ (1%nat = 0%nat
     ∨ (inject_Z (totalWeight (take 1 [handAA; handLow])) < 3 # 2)%Q)
  ∧ ((3 # 2) <= inject_Z (totalWeight (take 1 [handAA; handLow])
                          + ensureMinimumMisses (misses handLow)))%Q
  ∧ pickAt (3 # 2) [handAA; handLow] = Some handLow.
Proof.
  assert (1%nat = 0%nat
          ∨ (inject_Z (totalWeight (take 1 [handAA; handLow])) < 3 # 2)%Q) as Hlo
    by (right; reflexivity).
  assert ((3 # 2) <= inject_Z (totalWeight (take 1 [handAA; handLow])
                               + ensureMinimumMisses (misses handLow)))%Q as Hhi
    by (vm_compute; discriminate).
  split; [reflexivity|]. split; [exact Hlo|]. split; [exact Hhi|].
  exact (proj1 (draw_selects_by_weight [handAA; handLow] 1 handLow (3 # 2)
                  eq_refl Hlo Hhi)).
Defined.


Lemma walk_complete hands : ∀ threshold,
  hands ≠ [] → (threshold <= inject_Z (totalWeight hands))%Q →
  ∃ i h, hands !! i = Some h ∧ walk threshold hands = Some h
    ∧ (i = 0%nat ∨ (inject_Z (totalWeight (take i hands)) < threshold)%Q)
    ∧ (threshold <= inject_Z (totalWeight (take (S i) hands)))%Q.
Proof.
  induction hands as [|x hands IH]; intros threshold Hne Hle; [done|].
  rewrite totalWeight_cons, inject_Z_plus in Hle. simpl walk.
  destruct (Qle_bool _ 0) eqn:Hstop.
  - exists 0%nat, x. split; [done|]. split; [done|]. split; [by left|].
    apply Qle_bool_iff in Hstop. simpl take. rewrite totalWeight_cons.
    change (totalWeight []) with 0. rewrite Z.add_0_r. lra.
  - assert (¬ (threshold - inject_Z (ensureMinimumMisses (misses x)) <= 0)%Q) as Hgo.
    { rewrite <- Qle_bool_iff. congruence. }
    destruct hands as [|y hands].
    { exfalso. apply Hgo. change (totalWeight []) with 0 in Hle.
      change (inject_Z 0) with 0%Q in Hle. lra. }
    destruct (IH (threshold - inject_Z (ensureMinimumMisses (misses x)))%Q)
      as (j & h & Hj & Hw & Hlo & Hhi); [done|lra|].
    exists (S j), h. split; [done|]. split; [done|].
    change (take (S (S j)) (x :: y :: hands)) with (x :: take (S j) (y :: hands)).
    change (take (S j) (x :: y :: hands)) with (x :: take j (y :: hands)).
    rewrite (totalWeight_cons x (take (S j) (y :: hands))).
    rewrite (totalWeight_cons x (take j (y :: hands))).
    rewrite !inject_Z_plus. split; [right|lra].
    destruct Hlo as [->|Hlo]; [|lra].
    change (totalWeight (take 0 (y :: hands))) with 0.
    change (inject_Z 0) with 0%Q. lra.
Qed.

Lemma walkRounded_exact hands : ∀ threshold,
  walkRounded (fun q => q) threshold hands = walk threshold hands.
Proof.
  induction hands as [|x hands IH]; intros threshold; [done|].
  simpl. by rewrite IH.
Qed.

Lemma pickRounded_exact random hands :
  pickRounded (fun q => q) random hands = pickWeightedHand random hands.
Proof. unfold pickRounded, pickWeightedHand. by rewrite walkRounded_exact. Qed.






(** *** Loading, the table and the buttons *)

(** X15: whatever the storage holds, [loadProgressFromStorage] returns an
    object with exactly the two properties [totalMisses] and [perHand], and
    neither is [null]: start-up can read [perHand] of the result without a
    check. *)
Theorem load_never_null (window : option (gmap string string)) :
  ∃ total records,
    loadProgressFromStorage window = JObj [("totalMisses", total); ("perHand", records)]
    ∧ total ≠ JNull ∧ records ≠ JNull
    ∧ get "totalMisses" (loadProgressFromStorage window) = Some total
    ∧ get "perHand" (loadProgressFromStorage window) = Some records.
Proof.
  assert (∀ a b, b ≠ JNull → nullish a b ≠ JNull) as Hnullish.
  { intros a fallback Hb. destruct a as [[]|]; simpl; congruence. }
  unfold loadProgressFromStorage.
  destruct window as [localStorage|]; [|by eexists _, _].
  destruct (localStorage !! LOCAL_STORAGE_KEY) as [[|c raw]|]; try by eexists _, _.
  destruct (JSON.parse (String c raw)) as [parsed|]; [|by eexists _, _].
  destruct parsed; try (by eexists _, _);
    (eexists _, _; split; [reflexivity|]; split; [by apply Hnullish|];
     split; [by apply Hnullish|]; done).
Qed.

(** X16: the conversion of the table throws exactly when some row with a
    key has no [Color]; rows without a key are dropped, a missing [Players]
    or [misses] field is no error and gives 0 players and the weight 1, and
    on rows that have all four fields the conversion is [parseTable]. *)
Theorem convertTable_failure
    (Number : string → option Z) (trim : string → string) (data : list PapaRow) :
  (convertTable Number trim data = None
   ↔ ∃ row, row ∈ data ∧ keyed row = true ∧ papa_Color row = None)
  ∧ (∀ rows, convertTable Number trim data = Some rows →
       length rows = length (filter (fun row => keyed row = true) data))
  ∧ (∀ row, keyed row = true → is_Some (papa_Color row) →
       ∃ parsed, convertRow Number trim row = Some parsed
         ∧ (papa_Players row = None → row_Players parsed = 0)
         ∧ (papa_misses row = None → row_misses parsed = 1))
  ∧ (∀ raw, convertTable Number trim (papaOf <$> raw)
            = Some (parseTable Number trim raw)).
Proof.
  split; [|split; [|split]].
  - unfold convertTable. rewrite mapM_None, Exists_exists. split.
    + intros (row & [Hk Hin]%list_elem_of_filter & Hrow). exists row.
      split; [done|]. split; [done|]. unfold convertRow, keyed in *.
      destruct (papa_Hand row); [|done]. by destruct (papa_Color row).
    + intros (row & Hin & Hk & Hc). exists row. split; [by apply list_elem_of_filter|].
      unfold convertRow. rewrite Hc. by destruct (papa_Hand row).
  - intros rows Hrows. symmetry. by eapply length_mapM.
  - intros row Hk [color Hc]. unfold convertRow, keyed in *.
    destruct (papa_Hand row) as [hand|]; [|done]. rewrite Hc. simpl.
    eexists. split; [reflexivity|]. simpl. by split; intros ->.
  - intros raw. unfold convertTable, parseTable.
    induction raw as [|row raw IH]; [done|]. rewrite fmap_cons.
    assert (keyed (papaOf row) = true ↔ RawHandRecord.Hand row ≠ "") as Hkeyed.
    { unfold keyed. simpl. by destruct (RawHandRecord.Hand row). }
    destruct (decide (RawHandRecord.Hand row ≠ "")) as [Hk|Hk].
    + rewrite filter_cons_True by by apply Hkeyed.
      rewrite filter_cons_True by done. simpl. by rewrite IH.
    + rewrite filter_cons_False by by rewrite Hkeyed.
      by rewrite filter_cons_False by done.
Qed.

(** X17: the nine answer buttons are the values of [PLAYER_OPTIONS], each
    once and in order, in a row of five and a row of four; every one has a
    label in [PLAYER_COLOR_LABEL_MAP] and that label's own entry of
    [COLOR_THEME], never the default theme, and no two buttons share a
    theme.  A value outside the options gets the default theme.  A label
    outside the themes gets the default theme unless it names a member every
    object inherits: [getColorTheme "constructor"] is that member, not a
    theme. *)
Theorem answer_buttons_have_themes :
  concat playerRows = PLAYER_OPTIONS
  ∧ length <$> playerRows = [5; 4]%nat
  ∧ NoDup PLAYER_OPTIONS
  ∧ Forall (fun value =>
              ∃ label theme, PLAYER_COLOR_LABEL_MAP !! value = Some label
                ∧ COLOR_THEME !! label = Some theme
                ∧ buttonTheme value = OwnTheme theme
                ∧ theme ≠ COLOR_THEME_default)
           PLAYER_OPTIONS
  ∧ NoDup (buttonTheme <$> PLAYER_OPTIONS)
  ∧ (∀ value, value ∉ PLAYER_OPTIONS → buttonTheme value = OwnTheme COLOR_THEME_default)
  ∧ (∀ label, COLOR_THEME !! label = None → label ∉ OBJECT_PROTOTYPE_NAMES →
       getColorTheme label = OwnTheme COLOR_THEME_default)
  ∧ (∀ label, label ∈ OBJECT_PROTOTYPE_NAMES → getColorTheme label = Inherited label)
  ∧ getColorTheme "constructor" = Inherited "constructor".
Proof.
  split; [reflexivity|]. split; [reflexivity|].
  split.
  { unfold PLAYER_OPTIONS.
    repeat (apply NoDup_cons; split;
      [rewrite ?elem_of_cons, elem_of_nil; intros H;
       repeat (destruct H as [H|H]; [discriminate H|]); exact H|]).
    apply NoDup_nil_2. }
  split.
  { unfold PLAYER_OPTIONS. repeat (apply Forall_cons; split;
      [eexists; eexists; split; [reflexivity|]; split; [reflexivity|];
       split; [reflexivity|discriminate]|]).
    apply Forall_nil_2. }
  split.
  { vm_compute fmap.
    repeat (apply NoDup_cons; split;
      [rewrite ?elem_of_cons, elem_of_nil; intros H;
       repeat (destruct H as [H|H]; [discriminate H|]); exact H|]).
    apply NoDup_nil_2. }
  split.
  { intros value Hout. unfold buttonTheme, PLAYER_COLOR_LABEL_MAP.
    rewrite (not_elem_of_list_to_map_1 _ value); [reflexivity|exact Hout]. }
  split.
  { intros label Hnone Hout. unfold getColorTheme. rewrite Hnone.
    by rewrite bool_decide_eq_false_2. }
  split; [|reflexivity].
  intros label Hin. unfold OBJECT_PROTOTYPE_NAMES in Hin.
  rewrite ?elem_of_cons, elem_of_nil in Hin.
  repeat (destruct Hin as [->|Hin]; [reflexivity|]). destruct Hin.
Qed.

Lemma NoDup_keys_eq (l : list HandRecord) x h :
  NoDup (Hand <$> l) → x ∈ l → h ∈ l → Hand x = Hand h → x = h.
Proof.
  induction l as [|y l IH]; [by intros _ ?%elem_of_nil|].
  rewrite fmap_cons, NoDup_cons. intros [Hy Hnd] Hx Hh Heq.
  apply elem_of_cons in Hx as [->|Hx]; apply elem_of_cons in Hh as [->|Hh]; try done.
  - exfalso. apply Hy. rewrite Heq. by apply list_elem_of_fmap_2.
  - exfalso. apply Hy. rewrite <- Heq. by apply list_elem_of_fmap_2.
  - by apply IH.
Qed.

Lemma totalWeight_miss h timestamp l :
  NoDup (Hand <$> l) → h ∈ l → 1 ≤ misses h →
  totalWeight (map (fun hand => if String.eqb (Hand hand) (Hand h)
                                then withMiss hand (misses h + 1) timestamp
                                else hand) l)
  = totalWeight l + 1.
Proof.
  intros Hnd Hin Hpos. revert Hnd Hin.
  induction l as [|x l IH]; [by intros _ ?%elem_of_nil|].
  rewrite fmap_cons, NoDup_cons. intros [Hx Hnd] Hin.
  change (map ?f (x :: l)) with (f x :: map f l). cbv beta.
  apply elem_of_cons in Hin as [<-|Hin].
  - rewrite String.eqb_refl, sumMisses_untouched by done.
    rewrite !totalWeight_cons. simpl. unfold ensureMinimumMisses. lia.
  - assert (Hand x ≠ Hand h) as Hne.
    { intros Heq. apply Hx. rewrite Heq. by apply list_elem_of_fmap_2. }
    apply String.eqb_neq in Hne. rewrite Hne.
    rewrite (totalWeight_cons x), (totalWeight_cons x l), IH by done. lia.
Qed.

(** X18: a miss makes the missed item more likely to be drawn and nothing
    else.  In any state whose items have pairwise distinct keys, a wrong
    answer to a current item that is one of them and whose weight is a whole
    number at least 1 raises the effective weight of that item by exactly 1,
    leaves the effective weight of every other item as it was, and raises
    the total weight of the draw by exactly 1.  Weights are whole numbers
    below 2^53, the range in which the runtime adds 1 exactly. *)
Theorem miss_raises_weight_by_one
    (st : AppState) (h : HandRecord) (value : Z) (timestamp : string) :
  NoDup (Hand <$> hands st) → h ∈ hands st →
  currentHand st = Some h → answerStatus st = idle → value ≠ Players h →
  1 ≤ misses h → totalWeight (hands st) < 2 ^ 53 →
  let st' := handleAnswer value timestamp st in
  totalWeight (hands st') = totalWeight (hands st) + 1
  ∧ ∀ i x, hands st !! i = Some x →
      ∃ x', hands st' !! i = Some x'
        ∧ ensureMinimumMisses (misses x')
          = ensureMinimumMisses (misses x)
            + (if String.eqb (Hand x) (Hand h) then 1 else 0).
Proof.
  intros Hkeys Hin Hc Hs Hv Hpos _ st'. subst st'.
  rewrite (handleAnswer_wrong _ _ _ h Hc Hs Hv). simpl. split.
  - by apply totalWeight_miss.
  - intros i x Hi. rewrite list_lookup_fmap, Hi. simpl.
    eexists. split; [reflexivity|].
    assert (x ∈ hands st) as Hx by by eapply list_elem_of_lookup_2.
    destruct (String.eqb_spec (Hand x) (Hand h)) as [Heq|Hne]; [|lia].
    rewrite (NoDup_keys_eq _ x h Hkeys Hx Hin Heq).
    simpl. unfold ensureMinimumMisses. lia.
Qed.

Lemma miss_raises_weight_by_one_witness :
  NoDup (Hand <$> hands stateAA) ∧ handAA ∈ hands stateAA
  ∧ currentHand stateAA = Some handAA ∧ answerStatus stateAA = idle
  ∧ 3 ≠ Players handAA
  ∧ 1 ≤ misses handAA ∧ totalWeight (hands stateAA) < 2 ^ 53
  ∧ totalWeight (hands (handleAnswer 3 "2026-01-01T00:00:00.000Z" stateAA))
    = totalWeight (hands stateAA) + 1.
Proof.
  assert (NoDup (Hand <$> hands stateAA)) as Hnd by (apply NoDup_singleton).
  assert (handAA ∈ hands stateAA) as Hin by (apply list_elem_of_here).
  assert (3 ≠ Players handAA) as Hne by (simpl; lia).
  assert (1 ≤ misses handAA) as Hpos by (simpl; lia).
  assert (totalWeight (hands stateAA) < 2 ^ 53) as Hrange by (vm_compute; reflexivity).
  split; [exact Hnd|]. split; [exact Hin|].
  split; [reflexivity|]. split; [reflexivity|]. split; [exact Hne|].
  split; [exact Hpos|]. split; [exact Hrange|].
  exact (proj1 (miss_raises_weight_by_one stateAA handAA 3 "2026-01-01T00:00:00.000Z"
                  Hnd Hin eq_refl eq_refl Hne Hpos Hrange)).
Defined.
